(** * Verification of the network inventory tree printer ([misis.py])

    The Python program defines a small composite object model
    ([Printable], [BasicCollection], [Address], [Partition], [Disk], [CPU],
    [Memory], [Computer], [Network]) whose objects print themselves as an
    ASCII tree and clone themselves.

    Two embeddings are used:
    - [Tree]: the value of a node as a finite tree; [print_me] is the text the
      Python [print_me] writes to its stream, [str] is [Printable.__str__];
    - [Heap]: Python objects living in a store of locations, with the
      state+error monad of the program ([write] on the stream, allocation of
      new objects, failure for a raised exception).  [clone], the [add*]
      mutators and [BasicCollection.find] depend on object identity and are
      modelled there. *)

From Stdlib Require Import String Ascii ZArith List Bool Lia.
From stdpp Require Import base gmap.
Import ListNotations.

Local Set Warnings "-register-all".
Local Open Scope string_scope.
Local Open Scope Z_scope.

Infix "+++" := String.append (at level 60, right associativity).

(** ** Python helpers *)

(** [str(i)] for a Python [int]: decimal digits, with a leading ['-']. *)
Fixpoint digits_rev (fuel : nat) (n : Z) (acc : string) : string :=
  match fuel with
  | O => acc
  | S f =>
      let acc' := String (ascii_of_nat (48 + Z.to_nat (n mod 10))) acc in
      if n <? 10 then acc' else digits_rev f (n / 10) acc'
  end.

Definition str_int (z : Z) : string :=
  let n := Z.abs z in
  let ds := digits_rev (S (Z.to_nat (Z.log2 n))) n EmptyString in
  if z <? 0 then "-" +++ ds else ds.

(** A Python [str] is represented by its UTF-8 encoding, one [ascii] per
    byte.  [str.isspace] holds for U+0009 to U+000D, U+001C to U+001F,
    U+0020, U+0085, U+00A0, U+1680, U+2000 to U+200A, U+2028, U+2029,
    U+202F, U+205F and U+3000.  Their encodings are one byte for the ASCII
    ones ([is_space]), the two bytes [C2 85] and [C2 A0] ([is_space2]) and
    the three bytes [E1 9A 80], [E2 80 80] to [E2 80 8A], [E2 80 A8],
    [E2 80 A9], [E2 80 AF], [E2 81 9F] and [E3 80 80] ([is_space3]).  As
    [C2], [E1], [E2] and [E3] only start a character and a byte below 128 is
    always a character of its own, in a UTF-8 text these byte patterns at
    either end are exactly the whitespace characters there. *)
Definition is_space (c : ascii) : bool :=
  let n := nat_of_ascii c in
  (n =? 32)%nat || ((9 <=? n) && (n <=? 13))%nat || ((28 <=? n) && (n <=? 31))%nat.

Definition is_space2 (a b : ascii) : bool :=
  let x := nat_of_ascii a in
  let y := nat_of_ascii b in
  ((x =? 194) && ((y =? 133) || (y =? 160)))%nat.

Definition is_space3 (a b c : ascii) : bool :=
  let x := nat_of_ascii a in
  let y := nat_of_ascii b in
  let z := nat_of_ascii c in
  ((x =? 225) && (y =? 154) && (z =? 128)
   || (x =? 226) && (y =? 128)
      && ((128 <=? z) && (z <=? 138) || (z =? 168) || (z =? 169) || (z =? 175))
   || (x =? 226) && (y =? 129) && (z =? 159)
   || (x =? 227) && (y =? 128) && (z =? 128))%nat.

(** An ASCII character that is not whitespace. *)
Definition plain (c : ascii) : bool := ((nat_of_ascii c <? 128)%nat && negb (is_space c))%bool.

(** The trailing whitespace characters removed from a text given by its
    bytes in reverse order (last byte first). *)
Fixpoint rstrip_rev (r : list ascii) : list ascii :=
  match r with
  | [] => []
  | c :: r1 =>
      if is_space c then rstrip_rev r1 else
      match r1 with
      | b :: r2 =>
          if is_space2 b c then rstrip_rev r2 else
          match r2 with
          | a :: r3 => if is_space3 a b c then rstrip_rev r3 else r
          | [] => r
          end
      | [] => r
      end
  end.

(** [s.rstrip()] *)
Definition rstrip (s : string) : string :=
  string_of_list_ascii (rev (rstrip_rev (rev (list_ascii_of_string s)))).

(** [s.lstrip()] *)
Fixpoint lstrip (s : string) : string :=
  match s with
  | EmptyString => EmptyString
  | String a r1 =>
      if is_space a then lstrip r1 else
      match r1 with
      | String b r2 =>
          if is_space2 a b then lstrip r2 else
          match r2 with
          | String c r3 => if is_space3 a b c then lstrip r3 else s
          | EmptyString => s
          end
      | EmptyString => s
      end
  end.

(** [s.strip()]: whitespace removed at both ends. *)
Definition strip (s : string) : string := lstrip (rstrip s).

(** The last character of a text given by its reversed bytes is
    whitespace. *)
Definition ends_space_rev (r : list ascii) : bool :=
  match r with
  | c :: r1 =>
      is_space c ||
      match r1 with
      | b :: r2 => is_space2 b c || match r2 with a :: _ => is_space3 a b c | [] => false end
      | [] => false
      end
  | [] => false
  end.

(** The last character of [s] is whitespace ([s[-1:].isspace()]). *)
Definition ends_space (s : string) : bool := ends_space_rev (rev (list_ascii_of_string s)).

Definition nl : string := String (ascii_of_nat 10) EmptyString.

(** The two connectors: ["\\-"] in Python source is the two characters [\-]. *)
Definition connector (is_last : bool) : string :=
  if is_last then "\-" else "+-".

(** The prefix extension [("  " if is_last else "| ")]. *)
Definition segment (is_last : bool) : string :=
  if is_last then "  " else "| ".

Definition SSD : Z := 0.
Definition MAGNETIC : Z := 1.

Module Tree.

(** A node as the value of its object graph.  [Disk] holds the
    [(size, name)] tuples of its [partitions] list; [Computer] holds
    [addresses] and [components]; [Network] holds [computers];
    [BasicCollection] holds [items].  The attributes [numeric_val] of
    [Component] are the [size] of [Disk] and [Memory] and the [mhz] of
    [CPU]. *)
Inductive node : Type :=
| Address (address : string)
| Partition (size : Z) (name : string)
| Disk (storage_type : Z) (numeric_val : Z) (partitions : list (Z * string))
| CPU (cores : Z) (numeric_val : Z)
| Memory (numeric_val : Z)
| Computer (name : string) (addresses : list node) (components : list node)
| Network (name : string) (computers : list node)
| BasicCollection (items : list node).

(** The partition rows of [Disk.print_me]:
    [for i, (size, name) in enumerate(self.partitions)]. *)
Fixpoint disk_rows (new_prefix : string) (parts : list (Z * string))
    (i k : nat) : string :=
  match parts with
  | [] => EmptyString
  | (size, name) :: rest =>
      let last := Nat.eqb i (k - 1)%nat in
      new_prefix +++ connector last +++ "[" +++ str_int (Z.of_nat i) +++ "]: "
        +++ str_int size +++ " GiB, " +++ name +++ nl
      +++ disk_rows new_prefix rest (S i) k
  end.

(** The loop
    [for i, item in enumerate(items): item.print_me(os, p, i == len(items) - 1)]
    of the composites, started at index [i] for a sequence of length [k]. *)
Fixpoint seq_items (print : node -> string -> bool -> string) (items : list node)
    (p : string) (i k : nat) : string :=
  match items with
  | [] => EmptyString
  | item :: rest => print item p (Nat.eqb i (k - 1)%nat) +++ seq_items print rest p (S i) k
  end.

(** [print_me(os, prefix, is_last)]: the text written to [os].  [Computer]
    runs the loop on [self.addresses + self.components], i.e. over the
    addresses from index 0 and then over the components from index
    [len(self.addresses)]. *)
Fixpoint print_me (n : node) (prefix : string) (is_last : bool) {struct n} : string :=
  match n with
  | Address a => prefix +++ connector is_last +++ a +++ nl
  | Partition size name =>
      prefix +++ connector is_last +++ "[" +++ name +++ "]: " +++ str_int size
        +++ " GiB" +++ nl
  | Disk st size parts =>
      let type_str := if st =? SSD then "SSD" else "HDD" in
      prefix +++ connector is_last +++ type_str +++ ", " +++ str_int size
        +++ " GiB" +++ nl
      +++ disk_rows (prefix +++ segment is_last) parts 0%nat (length parts)
  | CPU cores mhz =>
      prefix +++ connector is_last +++ "CPU, " +++ str_int cores +++ " cores @ "
        +++ str_int mhz +++ "MHz" +++ nl
  | Memory size =>
      prefix +++ connector is_last +++ "Memory, " +++ str_int size +++ " MiB" +++ nl
  | Computer name addrs comps =>
      let new_prefix := prefix +++ segment is_last in
      let k := (length addrs + length comps)%nat in
      prefix +++ connector is_last +++ "Host: " +++ name +++ nl
      +++ seq_items print_me addrs new_prefix 0%nat k
      +++ seq_items print_me comps new_prefix (length addrs) k
  | Network name comps =>
      "Network: " +++ name +++ nl
      +++ seq_items print_me comps "" 0%nat (length comps)
  | BasicCollection items => seq_items print_me items prefix 0%nat (length items)
  end.

(** [Printable.__str__]: [print_me(buf, is_last=True)] with the default
    prefix [""], then [buf.getvalue().strip()]. *)
Definition str (n : node) : string := strip (print_me n "" true).

(** The builders of the tree value: the [add*] methods append to the
    corresponding list and return the owner ([return self]). *)
Definition Computer_new (name : string) : node := Computer name [] [].
Definition Network_new (name : string) : node := Network name [].
Definition Disk_new (storage_type size : Z) : node := Disk storage_type size [].

(** The argument of [Computer.add_address]: a [str] (wrapped in an
    [Address] by the [isinstance] test) or an object. *)
Inductive addr_arg : Type :=
| AStr (s : string)
| AObj (a : node).

Definition add_address (c : node) (arg : addr_arg) : node :=
  let addr := match arg with AStr s => Address s | AObj a => a end in
  match c with
  | Computer name addrs comps => Computer name (addrs ++ [addr]) comps
  | _ => c
  end.

Definition add_component (c : node) (comp : node) : node :=
  match c with
  | Computer name addrs comps => Computer name addrs (comps ++ [comp])
  | _ => c
  end.

Definition add_computer (n : node) (comp : node) : node :=
  match n with
  | Network name comps => Network name (comps ++ [comp])
  | _ => n
  end.

Definition add_partition (d : node) (size : Z) (name : string) : node :=
  match d with
  | Disk st sz parts => Disk st sz (parts ++ [(size, name)])
  | _ => d
  end.

(** The network built by [main()]. *)
Definition main_network : node :=
  add_computer
    (add_computer (Network_new "MISIS network")
       (add_component
          (add_component
             (add_address (Computer_new "server1.misis.ru") (AStr "192.168.1.1"))
             (CPU 4 2500))
          (Memory 16000)))
    (add_component
       (add_component
          (add_address (Computer_new "server2.misis.ru") (AStr "10.0.0.1"))
          (CPU 8 3200))
       (add_partition (add_partition (Disk_new MAGNETIC 2000) 500 "system") 1500 "data")).

(** The attribute [comp.name] read by [find_computer]; [None] when the
    object has no attribute [name] ([AttributeError]). *)
Definition name_attr (n : node) : option string :=
  match n with
  | Computer name _ _ => Some name
  | Network name _ => Some name
  | Partition _ name => Some name
  | _ => None
  end.

(** [Network.find_computer(name)]: [None] is a raised exception,
    [Some None] the returned [None], [Some (Some c)] the returned [c]. *)
Fixpoint find_computer_loop (comps : list node) (name : string) : option (option node) :=
  match comps with
  | [] => Some None
  | comp :: rest =>
      match name_attr comp with
      | None => None
      | Some cname => if String.eqb cname name then Some (Some comp)
                      else find_computer_loop rest name
      end
  end.

Definition find_computer (n : node) (name : string) : option (option node) :=
  match n with
  | Network _ comps => find_computer_loop comps name
  | _ => None
  end.

(** The lines of a text, each ended by a newline. *)
Fixpoint lines_text (ls : list string) : string :=
  match ls with
  | [] => EmptyString
  | l :: rest => l +++ nl +++ lines_text rest
  end.

Fixpoint concat_str (ss : list string) : string :=
  match ss with
  | [] => EmptyString
  | s :: rest => s +++ concat_str rest
  end.

(** Spec side, connector rule: in a sequence of [k] children the flags
    [is_last] are [false] for positions [0 .. k-2] and [true] for [k-1]. *)
Definition last_flags (k : nat) : list bool :=
  match k with
  | O => []
  | S k' => (repeat false k' ++ [true])%list
  end.

(** A partition row of [Disk.print_me], as the spec describes it. *)
Definition disk_row (new_prefix : string) (row : nat * (Z * string) * bool) : string :=
  let '(i, (size, name), f) := row in
  new_prefix +++ connector f +++ "[" +++ str_int (Z.of_nat i) +++ "]: " +++ str_int size
    +++ " GiB, " +++ name +++ nl.

(** Spec side, prefix rule: the prefix of a node is one segment per proper
    ancestor below the [Network] root, ["| "] for a non-last one and ["  "]
    for a last one; [anc] lists the [is_last] flags of these ancestors from
    the top down. *)
Definition anc_prefix (anc : list bool) : string := concat_str (map segment anc).

(** The node kinds that the annotations of [Computer] allow below a
    [Network]: hosts, addresses and components (no nested [Network] nor
    [BasicCollection]). *)
Fixpoint host_tree (n : node) : bool :=
  match n with
  | Computer _ addrs comps => forallb host_tree addrs && forallb host_tree comps
  | Network _ _ | BasicCollection _ => false
  | _ => true
  end.

(** Children rendered with the given flags, one each. *)
Fixpoint render_children (render : node -> bool -> string) (items : list node)
    (flags : list bool) : string :=
  match items, flags with
  | item :: rest, f :: fs => render item f +++ render_children render rest fs
  | _, _ => EmptyString
  end.

(** The rendering the spec describes, with each line's prefix computed from
    the ancestors instead of being passed down. *)
Fixpoint spec_render (anc : list bool) (n : node) (is_last : bool) {struct n} : string :=
  let line (label : string) := anc_prefix anc +++ connector is_last +++ label +++ nl in
  match n with
  | Address a => line a
  | Partition size name => line ("[" +++ name +++ "]: " +++ str_int size +++ " GiB")
  | Disk st size parts =>
      line ((if st =? SSD then "SSD" else "HDD") +++ ", " +++ str_int size +++ " GiB")
      +++ concat_str
            (map (disk_row (anc_prefix (anc ++ [is_last])%list))
                 (combine (combine (List.seq 0 (length parts)) parts)
                          (last_flags (length parts))))
  | CPU cores mhz =>
      line ("CPU, " +++ str_int cores +++ " cores @ " +++ str_int mhz +++ "MHz")
  | Memory size => line ("Memory, " +++ str_int size +++ " MiB")
  | Computer name addrs comps =>
      let flags := last_flags (length addrs + length comps) in
      line ("Host: " +++ name)
      +++ render_children (spec_render (anc ++ [is_last])%list) addrs
            (firstn (length addrs) flags)
      +++ render_children (spec_render (anc ++ [is_last])%list) comps
            (skipn (length addrs) flags)
  | Network _ _ | BasicCollection _ => EmptyString
  end.

Definition spec_render_network (name : string) (comps : list node) : string :=
  "Network: " +++ name +++ nl
  +++ render_children (spec_render []) comps (last_flags (length comps)).

Definition is_computer (n : node) : bool :=
  match n with Computer _ _ _ => true | _ => false end.

(** ** Line structure of the rendered text *)

Definition is_nl (c : ascii) : bool := Ascii.eqb c (ascii_of_nat 10).

(** The string holds no newline. *)
Fixpoint no_nl (s : string) : bool :=
  match s with
  | EmptyString => true
  | String c rest => negb (is_nl c) && no_nl rest
  end.

(** The number of newlines of a text, i.e. of its lines when it ends with
    one. *)
Fixpoint count_nl (s : string) : nat :=
  match s with
  | EmptyString => 0%nat
  | String c rest => ((if is_nl c then 1 else 0) + count_nl rest)%nat
  end.

(** The text with [p] inserted at the start of each of its lines. *)
Fixpoint indent_from (start : bool) (p s : string) : string :=
  match s with
  | EmptyString => EmptyString
  | String c rest => (if start then p else EmptyString) +++ String c (indent_from (is_nl c) p rest)
  end.

Definition indent (p s : string) : string := indent_from true p s.

(** The string attributes of a value hold no newline. *)
Fixpoint fields_ok (n : node) : bool :=
  match n with
  | Address a => no_nl a
  | Partition _ name => no_nl name
  | Disk _ _ parts => forallb (fun part => no_nl (snd part)) parts
  | CPU _ _ | Memory _ => true
  | Computer name addrs comps => no_nl name && forallb fields_ok addrs && forallb fields_ok comps
  | Network name comps => no_nl name && forallb fields_ok comps
  | BasicCollection items => forallb fields_ok items
  end.

(** No [Network] inside the value (a [Network] prints at column 0). *)
Fixpoint no_network (n : node) : bool :=
  match n with
  | Network _ _ => false
  | Computer _ addrs comps => forallb no_network addrs && forallb no_network comps
  | BasicCollection items => forallb no_network items
  | _ => true
  end.

(** One line per node and per partition of a disk; a collection has no
    line of its own. *)
Fixpoint node_lines (n : node) : nat :=
  match n with
  | Disk _ _ parts => S (length parts)
  | Computer _ addrs comps =>
      S (list_sum (map node_lines addrs) + list_sum (map node_lines comps))
  | Network _ comps => S (list_sum (map node_lines comps))
  | BasicCollection items => list_sum (map node_lines items)
  | _ => 1%nat
  end.

End Tree.

Module Heap.
Import Tree.

(** Object identities. *)
Definition loc := nat.

(** A Python object of one of the classes, its list attributes holding the
    identities of the objects they contain.  Each list attribute belongs to
    its object: the constructors create a fresh [[]], [clone] assigns fresh
    lists, and the [add*] methods append to the list of [self]; no code of the
    program makes two objects share one list. *)
Inductive obj : Type :=
| OAddress (address : string)
| OPartition (size : Z) (name : string)
| ODisk (storage_type : Z) (numeric_val : Z) (partitions : list (Z * string))
| OCPU (cores : Z) (numeric_val : Z)
| OMemory (numeric_val : Z)
| OComputer (name : string) (addresses : list loc) (components : list loc)
| ONetwork (name : string) (computers : list loc)
| OBasicCollection (items : list loc).

(** The program state: the objects, the text written to the output stream
    [os], and the next free identity. *)
Record world : Type := mkWorld { heap : gmap loc obj; out : string; next : loc }.

(** State and error monad: [None] is a raised exception. *)
Definition M (A : Type) : Type := world -> option (A * world).

Definition retM {A} (a : A) : M A := fun w => Some (a, w).
Definition bindM {A B} (m : M A) (k : A -> M B) : M B :=
  fun w => match m w with Some (a, w') => k a w' | None => None end.
Definition raise {A} : M A := fun _ => None.

Notation "'let*' x ':=' m 'in' k" := (bindM m (fun x => k))
  (at level 200, x name, m at level 100, k at level 200).

Definition load (l : loc) : M obj :=
  fun w => match heap w !! l with Some o => Some (o, w) | None => None end.
Definition store (l : loc) (o : obj) : M unit :=
  fun w => Some (tt, mkWorld (<[l := o]> (heap w)) (out w) (next w)).
(** Object creation: a new identity. *)
Definition alloc (o : obj) : M loc :=
  fun w => Some (next w, mkWorld (<[next w := o]> (heap w)) (out w) (S (next w))).
(** [os.write(s)] *)
Definition write (s : string) : M unit :=
  fun w => Some (tt, mkWorld (heap w) (out w +++ s) (next w)).

(** The loop [for i, item in enumerate(items): item.print_me(os, p, i == len(items) - 1)]. *)
Fixpoint seq_h (print : loc -> string -> bool -> M unit) (items : list loc)
    (p : string) (i k : nat) : M unit :=
  match items with
  | [] => retM tt
  | item :: rest =>
      let* _ := print item p (Nat.eqb i (k - 1)%nat) in seq_h print rest p (S i) k
  end.

(** The partition rows of [Disk.print_me], one [os.write] each. *)
Fixpoint write_rows (new_prefix : string) (parts : list (Z * string)) (i k : nat) : M unit :=
  match parts with
  | [] => retM tt
  | (size, name) :: rest =>
      let last := Nat.eqb i (k - 1)%nat in
      let* _ := write (new_prefix +++ connector last +++ "[" +++ str_int (Z.of_nat i)
                       +++ "]: " +++ str_int size +++ " GiB, " +++ name +++ nl) in
      write_rows new_prefix rest (S i) k
  end.

(** [obj.print_me(os, prefix, is_last)], dispatched on the class of the
    object.  [fuel] bounds the depth of the Python call stack: a call made
    without fuel raises, as a [RecursionError] would. *)
Fixpoint print_me_h (fuel : nat) (l : loc) (prefix : string) (is_last : bool) : M unit :=
  match fuel with
  | O => raise
  | S fuel' =>
      let* o := load l in
      match o with
      | OAddress a => write (prefix +++ connector is_last +++ a +++ nl)
      | OPartition size name =>
          write (prefix +++ connector is_last +++ "[" +++ name +++ "]: " +++ str_int size
                 +++ " GiB" +++ nl)
      | ODisk st size parts =>
          let type_str := if st =? SSD then "SSD" else "HDD" in
          let* _ := write (prefix +++ connector is_last +++ type_str +++ ", " +++ str_int size
                           +++ " GiB" +++ nl) in
          write_rows (prefix +++ segment is_last) parts 0%nat (length parts)
      | OCPU cores mhz =>
          write (prefix +++ connector is_last +++ "CPU, " +++ str_int cores +++ " cores @ "
                 +++ str_int mhz +++ "MHz" +++ nl)
      | OMemory size =>
          write (prefix +++ connector is_last +++ "Memory, " +++ str_int size +++ " MiB" +++ nl)
      | OComputer name addrs comps =>
          let* _ := write (prefix +++ connector is_last +++ "Host: " +++ name +++ nl) in
          let new_prefix := prefix +++ segment is_last in
          let items := (addrs ++ comps)%list in
          seq_h (print_me_h fuel') items new_prefix 0%nat (length items)
      | ONetwork name comps =>
          let* _ := write ("Network: " +++ name +++ nl) in
          seq_h (print_me_h fuel') comps "" 0%nat (length comps)
      | OBasicCollection items =>
          seq_h (print_me_h fuel') items prefix 0%nat (length items)
      end
  end.

(** The text of [obj.print_me] written into a fresh buffer ([StringIO()]). *)
Definition render_text (fuel : nat) (h : gmap loc obj) (l : loc) (p : string) (b : bool)
    : option string :=
  match print_me_h fuel l p b (mkWorld h EmptyString 0%nat) with
  | Some (_, w) => Some (out w)
  | None => None
  end.

(** [Disk.add_partition(size, name)] *)
Definition add_partition (d : loc) (size : Z) (name : string) : M loc :=
  let* o := load d in
  match o with
  | ODisk st sz parts => let* _ := store d (ODisk st sz (parts ++ [(size, name)])) in retM d
  | _ => raise
  end.

(** The list comprehension [[x.clone() for x in xs]]. *)
Fixpoint clone_list (clone : loc -> M loc) (xs : list loc) : M (list loc) :=
  match xs with
  | [] => retM []
  | x :: rest => let* x' := clone x in let* rest' := clone_list clone rest in retM (x' :: rest')
  end.

(** [for part in self.partitions: new_disk.add_partition( *part)] *)
Fixpoint add_partitions (d : loc) (parts : list (Z * string)) : M unit :=
  match parts with
  | [] => retM tt
  | (size, name) :: rest => let* _ := add_partition d size name in add_partitions d rest
  end.

(** [obj.clone()], dispatched on the class of the object. *)
Fixpoint clone (fuel : nat) (l : loc) : M loc :=
  match fuel with
  | O => raise
  | S fuel' =>
      let* o := load l in
      match o with
      | OAddress a => alloc (OAddress a)
      | OPartition size name => alloc (OPartition size name)
      | ODisk st size parts =>
          let* d := alloc (ODisk st size []) in
          let* _ := add_partitions d parts in
          retM d
      | OCPU cores mhz => alloc (OCPU cores mhz)
      | OMemory size => alloc (OMemory size)
      | OComputer name addrs comps =>
          let* c := alloc (OComputer name [] []) in
          let* addrs' := clone_list (clone fuel') addrs in
          let* _ := store c (OComputer name addrs' []) in
          let* comps' := clone_list (clone fuel') comps in
          let* _ := store c (OComputer name addrs' comps') in
          retM c
      | ONetwork name comps =>
          let* n := alloc (ONetwork name []) in
          let* comps' := clone_list (clone fuel') comps in
          let* _ := store n (ONetwork name comps') in
          retM n
      | OBasicCollection items =>
          let* c := alloc (OBasicCollection []) in
          let* items' := clone_list (clone fuel') items in
          let* _ := store c (OBasicCollection items') in
          retM c
      end
  end.

(** [BasicCollection.add(elem)] *)
Definition add (c : loc) (elem : loc) : M loc :=
  let* o := load c in
  match o with
  | OBasicCollection items => let* _ := store c (OBasicCollection (items ++ [elem])) in retM c
  | _ => raise
  end.

(** The argument of [Computer.add_address]: a [str] or an object. *)
Inductive addr_arg_h : Type :=
| HStr (s : string)
| HObj (a : loc).

(** [Computer.add_address(addr)] *)
Definition add_address (c : loc) (arg : addr_arg_h) : M loc :=
  let* o := load c in
  match o with
  | OComputer name addrs comps =>
      let* a := match arg with HStr s => alloc (OAddress s) | HObj a => retM a end in
      let* _ := store c (OComputer name (addrs ++ [a]) comps) in retM c
  | _ => raise
  end.

(** [Computer.add_component(comp)] *)
Definition add_component (c : loc) (comp : loc) : M loc :=
  let* o := load c in
  match o with
  | OComputer name addrs comps =>
      let* _ := store c (OComputer name addrs (comps ++ [comp])) in retM c
  | _ => raise
  end.

(** [Network.add_computer(comp)] *)
Definition add_computer (n : loc) (comp : loc) : M loc :=
  let* o := load n in
  match o with
  | ONetwork name comps => let* _ := store n (ONetwork name (comps ++ [comp])) in retM n
  | _ => raise
  end.

(** [item == elem] between two of these objects: no class defines [__eq__],
    so Python falls back to identity. *)
Definition py_eq (a b : loc) : bool := Nat.eqb a b.

(** [BasicCollection.find(elem)] *)
Definition find (c : loc) (elem : loc) : M (option loc) :=
  let* o := load c in
  match o with
  | OBasicCollection items =>
      retM ((fix scan (xs : list loc) : option loc :=
               match xs with
               | [] => None
               | item :: rest => if py_eq item elem then Some item else scan rest
               end) items)
  | _ => raise
  end.

(** The append mutations a caller can apply to an object. *)
Inductive cmd : Type :=
| CAdd (target elem : loc)
| CAddAddress (target : loc) (arg : addr_arg_h)
| CAddComponent (target comp : loc)
| CAddComputer (target comp : loc)
| CAddPartition (target : loc) (size : Z) (name : string).

Definition target (c : cmd) : loc :=
  match c with
  | CAdd t _ | CAddAddress t _ | CAddComponent t _ | CAddComputer t _
  | CAddPartition t _ _ => t
  end.

Definition run_cmd (c : cmd) : M loc :=
  match c with
  | CAdd t e => add t e
  | CAddAddress t a => add_address t a
  | CAddComponent t x => add_component t x
  | CAddComputer t x => add_computer t x
  | CAddPartition t size name => add_partition t size name
  end.

Fixpoint run_cmds (cs : list cmd) : M unit :=
  match cs with
  | [] => retM tt
  | c :: rest => let* _ := run_cmd c in run_cmds rest
  end.

(** The identities held in the list attributes of an object. *)
Definition children (o : obj) : list loc :=
  match o with
  | OComputer _ addrs comps => addrs ++ comps
  | ONetwork _ comps => comps
  | OBasicCollection items => items
  | _ => []
  end.

(** [m] is an object of the subtree of [l]. *)
Inductive reach (h : gmap loc obj) : loc -> loc -> Prop :=
| reach_refl l : reach h l l
| reach_step l o c m : h !! l = Some o -> In c (children o) -> reach h c m -> reach h l m.

Fixpoint all2 (R : loc -> node -> Prop) (ls : list loc) (ts : list node) {struct ts} : Prop :=
  match ls, ts with
  | [], [] => True
  | l :: ls', t :: ts' => R l t /\ all2 R ls' ts'
  | _, _ => False
  end.

(** The object graph below [l] in [h] is finite and has the value [t]; every
    object of it has an identity satisfying [P]. *)
Fixpoint reifyP (P : loc -> Prop) (h : gmap loc obj) (l : loc) (t : node) {struct t} : Prop :=
  P l /\
  match t with
  | Address a => h !! l = Some (OAddress a)
  | Partition size name => h !! l = Some (OPartition size name)
  | Disk st size parts => h !! l = Some (ODisk st size parts)
  | CPU cores mhz => h !! l = Some (OCPU cores mhz)
  | Memory size => h !! l = Some (OMemory size)
  | Computer name addrs comps =>
      exists la lc, h !! l = Some (OComputer name la lc)
                    /\ all2 (reifyP P h) la addrs /\ all2 (reifyP P h) lc comps
  | Network name comps =>
      exists lcs, h !! l = Some (ONetwork name lcs) /\ all2 (reifyP P h) lcs comps
  | BasicCollection items =>
      exists lis, h !! l = Some (OBasicCollection lis) /\ all2 (reifyP P h) lis items
  end.

Definition reify (h : gmap loc obj) (l : loc) (t : node) : Prop := reifyP (fun _ => True) h l t.

(** Nesting depth of a value: the Python call depth of its [print_me] and
    [clone]. *)
Fixpoint height (t : node) : nat :=
  match t with
  | Computer _ addrs comps =>
      S (Nat.max (list_max (map height addrs)) (list_max (map height comps)))
  | Network _ comps => S (list_max (map height comps))
  | BasicCollection items => S (list_max (map height items))
  | _ => 0%nat
  end.

(** Identities at or above [next] are unused. *)
Definition wf (w : world) : Prop := forall k, (next w <= k)%nat -> heap w !! k = None.

(** [c = BasicCollection(); a = Address("v"); c.add(a)], then
    [c.find(Address("v"))] and [c.find(a)]. *)
Definition find_fresh_scenario : M (option loc * option loc) :=
  let* c := alloc (OBasicCollection []) in
  let* a := alloc (OAddress "v") in
  let* _ := add c a in
  let* a2 := alloc (OAddress "v") in
  let* r1 := find c a2 in
  let* r2 := find c a in
  retM (r1, r2).

End Heap.

Module TreeFacts.
Import Tree.

(** ** Strings *)

Lemma append_cons_s (x : ascii) (a b : string) : String x a +++ b = String x (a +++ b).
Proof. reflexivity. Qed.

Lemma append_empty_s (b : string) : "" +++ b = b.
Proof. reflexivity. Qed.

Lemma append_assoc_s (a b c : string) : (a +++ b) +++ c = a +++ b +++ c.
Proof.
  induction a as [|x a IH]; [reflexivity|]. now rewrite !append_cons_s, IH.
Qed.

Lemma append_nil_s (a : string) : a +++ "" = a.
Proof. induction a as [|x a IH]; [reflexivity|]. now rewrite append_cons_s, IH. Qed.

Lemma plain_space (c : ascii) : plain c = true -> is_space c = false.
Proof. unfold plain. intros H. apply andb_prop in H as [_ H]. now apply negb_true_iff. Qed.

Lemma plain_space2 (a b : ascii) : plain a = true -> is_space2 a b = false.
Proof.
  unfold plain, is_space2. cbv zeta. intros H. apply andb_prop in H as [H _].
  apply Nat.ltb_lt in H. destruct (Nat.eqb_spec (nat_of_ascii a) 194); [lia | reflexivity].
Qed.

Lemma plain_space3 (a b c : ascii) : plain a = true -> is_space3 a b c = false.
Proof.
  unfold plain, is_space3. cbv zeta. intros H. apply andb_prop in H as [H _].
  apply Nat.ltb_lt in H.
  assert (E : forall k, (128 <= k)%nat -> (nat_of_ascii a =? k)%nat = false)
    by (intros k Hk; apply Nat.eqb_neq; lia).
  rewrite !E by lia. reflexivity.
Qed.

Lemma list_ascii_app (a b : string) :
  list_ascii_of_string (a +++ b) = (list_ascii_of_string a ++ list_ascii_of_string b)%list.
Proof.
  induction a as [|c a IH]; [reflexivity|]. rewrite append_cons_s. cbn [list_ascii_of_string].
  rewrite IH. reflexivity.
Qed.

Lemma rstrip_rev_snoc (c : ascii) (Hc : plain c = true) :
  forall r, rstrip_rev (r ++ [c]) = (rstrip_rev r ++ [c])%list.
Proof.
  pose proof (plain_space c Hc) as H1.
  assert (H2 : forall x, is_space2 c x = false) by (intros; apply plain_space2, Hc).
  assert (H3 : forall x y, is_space3 c x y = false) by (intros; apply plain_space3, Hc).
  assert (G : forall n r, (length r <= n)%nat -> rstrip_rev (r ++ [c]) = (rstrip_rev r ++ [c])%list).
  { induction n as [|n IH]; intros r Hr.
    - destruct r; [|simpl in Hr; lia]. cbn. rewrite H1. reflexivity.
    - destruct r as [|x r1]; [cbn; rewrite H1; reflexivity|].
      simpl in Hr. cbn [app rstrip_rev].
      destruct (is_space x); [apply IH; lia|].
      destruct r1 as [|y r2]; cbn [app].
      + rewrite H2. reflexivity.
      + destruct (is_space2 y x); [apply IH; simpl in Hr; lia|].
        destruct r2 as [|z r3]; cbn [app].
        * rewrite H3. reflexivity.
        * destruct (is_space3 z y x); [apply IH; simpl in Hr; lia | reflexivity]. }
  intros r. exact (G (length r) r (Nat.le_refl _)).
Qed.

Lemma rstrip_rev_le : forall r, (length (rstrip_rev r) <= length r)%nat.
Proof.
  assert (G : forall n r, (length r <= n)%nat -> (length (rstrip_rev r) <= length r)%nat).
  { induction n as [|n IH]; intros r Hr.
    - destruct r; [reflexivity | simpl in Hr; lia].
    - destruct r as [|x r1]; [reflexivity|]. simpl in Hr. cbn [rstrip_rev].
      destruct (is_space x); [specialize (IH r1 ltac:(lia)); simpl; lia|].
      destruct r1 as [|y r2]; [reflexivity|].
      destruct (is_space2 y x); [specialize (IH r2 ltac:(simpl in Hr; lia)); simpl; lia|].
      destruct r2 as [|z r3]; [reflexivity|].
      destruct (is_space3 z y x); [specialize (IH r3 ltac:(simpl in Hr; lia)); simpl; lia|].
      reflexivity. }
  intros r. exact (G (length r) r (Nat.le_refl _)).
Qed.

Lemma rstrip_rev_fixed (r : list ascii) : rstrip_rev r = r -> ends_space_rev r = false.
Proof.
  destruct r as [|x r1]; [reflexivity|]. unfold ends_space_rev. cbn [rstrip_rev].
  destruct (is_space x).
  { intros H. pose proof (rstrip_rev_le r1) as L. rewrite H in L. simpl in L. lia. }
  destruct r1 as [|y r2]; [reflexivity|].
  destruct (is_space2 y x).
  { intros H. pose proof (rstrip_rev_le r2) as L. rewrite H in L. simpl in L. lia. }
  destruct r2 as [|z r3]; [reflexivity|].
  destruct (is_space3 z y x); [|reflexivity].
  intros H. pose proof (rstrip_rev_le r3) as L. rewrite H in L. simpl in L. lia.
Qed.

Lemma rstrip_rev_clean (r : list ascii) : ends_space_rev r = false -> rstrip_rev r = r.
Proof.
  destruct r as [|x r1]; [reflexivity|]. unfold ends_space_rev. cbn [rstrip_rev].
  destruct (is_space x); [discriminate|]. simpl orb.
  destruct r1 as [|y r2]; [reflexivity|].
  destruct (is_space2 y x); [discriminate|]. simpl orb.
  destruct r2 as [|z r3]; [reflexivity|].
  destruct (is_space3 z y x); [discriminate | reflexivity].
Qed.

(** [rstrip] leaves a text unchanged exactly when its last character is
    not whitespace. *)
Lemma rstrip_clean (s : string) : ends_space s = false -> rstrip s = s.
Proof.
  unfold ends_space, rstrip. intros H. rewrite (rstrip_rev_clean _ H), rev_involutive.
  apply string_of_list_ascii_of_string.
Qed.

Lemma rstrip_changes (s : string) : ends_space s = true -> rstrip s <> s.
Proof.
  unfold ends_space, rstrip. intros H E.
  apply (f_equal list_ascii_of_string) in E. rewrite list_ascii_of_string_of_list_ascii in E.
  apply (f_equal (@rev ascii)) in E. rewrite rev_involutive in E.
  apply rstrip_rev_fixed in E. congruence.
Qed.

Lemma rstrip_app_nl (s : string) : rstrip (s +++ nl) = rstrip s.
Proof. unfold rstrip. rewrite list_ascii_app, rev_app_distr. reflexivity. Qed.

Lemma rstrip_plain_head (c : ascii) (rest : string) :
  plain c = true -> rstrip (String c rest) = String c (rstrip rest).
Proof.
  intros Hc. unfold rstrip. cbn [list_ascii_of_string rev].
  rewrite (rstrip_rev_snoc c Hc), rev_app_distr. reflexivity.
Qed.

Lemma lstrip_plain_head (c : ascii) (rest : string) :
  plain c = true -> lstrip (String c rest) = String c rest.
Proof.
  intros Hc. cbn [lstrip]. rewrite (plain_space c Hc).
  destruct rest as [|b r2]; [reflexivity|]. rewrite (plain_space2 c b Hc).
  destruct r2 as [|d r3]; [reflexivity|]. rewrite (plain_space3 c b d Hc). reflexivity.
Qed.

Lemma strip_plain_head (s : string) :
  (s = EmptyString \/ exists c rest, s = String c rest /\ plain c = true) ->
  strip s = rstrip s.
Proof.
  intros [-> | (c & rest & -> & Hc)]; [reflexivity|].
  unfold strip. rewrite (rstrip_plain_head c rest Hc). apply lstrip_plain_head, Hc.
Qed.

(** ** Induction on nodes *)

Section NodeInd.
Variable P : node -> Prop.
Hypothesis HAddress : forall a, P (Address a).
Hypothesis HPartition : forall size name, P (Partition size name).
Hypothesis HDisk : forall st size parts, P (Disk st size parts).
Hypothesis HCPU : forall cores mhz, P (CPU cores mhz).
Hypothesis HMemory : forall size, P (Memory size).
Hypothesis HComputer : forall name addrs comps,
  Forall P addrs -> Forall P comps -> P (Computer name addrs comps).
Hypothesis HNetwork : forall name comps, Forall P comps -> P (Network name comps).
Hypothesis HCollection : forall items, Forall P items -> P (BasicCollection items).

Fixpoint node_ind' (n : node) : P n :=
  let fix all (l : list node) : Forall P l :=
    match l with
    | [] => List.Forall_nil P
    | x :: r => @List.Forall_cons _ P x r (node_ind' x) (all r)
    end in
  match n with
  | Address a => HAddress a
  | Partition size name => HPartition size name
  | Disk st size parts => HDisk st size parts
  | CPU cores mhz => HCPU cores mhz
  | Memory size => HMemory size
  | Computer name addrs comps => HComputer name addrs comps (all addrs) (all comps)
  | Network name comps => HNetwork name comps (all comps)
  | BasicCollection items => HCollection items (all items)
  end.
End NodeInd.

(** ** Flags of the enumeration loops *)

Lemma map_eqb_below (m a n : nat) :
  (a + m <= n)%nat -> map (fun j => Nat.eqb j n) (List.seq a m) = repeat false m.
Proof.
  revert a. induction m as [|m IH]; intros a Ha; simpl; [reflexivity|].
  rewrite IH by lia. f_equal. apply Nat.eqb_neq. lia.
Qed.

Lemma last_flags_map (k : nat) :
  last_flags k = map (fun j => Nat.eqb j (k - 1)) (List.seq 0 k).
Proof.
  destruct k as [|k]; [reflexivity|].
  rewrite seq_S, map_app. simpl. rewrite Nat.sub_0_r, Nat.eqb_refl.
  rewrite map_eqb_below by lia. reflexivity.
Qed.

Lemma seq_items_flags (print : node -> string -> bool -> string)
    (items : list node) (p : string) (i k : nat) :
  seq_items print items p i k
  = render_children (fun c f => print c p f) items
      (map (fun j => Nat.eqb j (k - 1)) (List.seq i (length items))).
Proof.
  revert i. induction items as [|x items IH]; intros i; simpl; [reflexivity|].
  now rewrite IH.
Qed.

Lemma render_children_app (r : node -> bool -> string) (a c : list node)
    (fa fc : list bool) :
  length a = length fa ->
  render_children r (a ++ c) (fa ++ fc) = render_children r a fa +++ render_children r c fc.
Proof.
  revert fa. induction a as [|x a IH]; intros [|f fa] Hl; simpl in *; try discriminate.
  - reflexivity.
  - rewrite IH by lia. now rewrite append_assoc_s.
Qed.

Lemma render_children_ext (r1 r2 : node -> bool -> string) (items : list node)
    (flags : list bool) :
  Forall (fun c => forall f, r1 c f = r2 c f) items ->
  render_children r1 items flags = render_children r2 items flags.
Proof.
  intros H. revert flags. induction H as [|x items Hx _ IH]; intros [|f flags];
    simpl; try reflexivity.
  now rewrite Hx, IH.
Qed.

Lemma flags_split (la lc : nat) :
  map (fun j => Nat.eqb j (la + lc - 1)) (List.seq 0 (la + lc))
  = (map (fun j => Nat.eqb j (la + lc - 1)) (List.seq 0 la)
     ++ map (fun j => Nat.eqb j (la + lc - 1)) (List.seq la lc))%list.
Proof. now rewrite seq_app, map_app. Qed.

(** The three composites with a loop, as a header followed by the children
    rendered with the spec's flags. *)
Lemma print_me_Computer (name : string) (addrs comps : list node) (p : string) (b : bool) :
  print_me (Computer name addrs comps) p b
  = p +++ connector b +++ "Host: " +++ name +++ nl
    +++ render_children (fun c f => print_me c (p +++ segment b) f) (addrs ++ comps)
          (last_flags (length (addrs ++ comps))).
Proof.
  simpl print_me. rewrite !seq_items_flags, length_app, last_flags_map, flags_split.
  rewrite render_children_app by (now rewrite length_map, length_seq).
  reflexivity.
Qed.

Lemma print_me_Network (name : string) (comps : list node) (p : string) (b : bool) :
  print_me (Network name comps) p b
  = "Network: " +++ name +++ nl
    +++ render_children (fun c f => print_me c "" f) comps (last_flags (length comps)).
Proof. simpl print_me. now rewrite seq_items_flags, last_flags_map. Qed.

Lemma print_me_Collection (items : list node) (p : string) (b : bool) :
  print_me (BasicCollection items) p b
  = render_children (fun c f => print_me c p f) items (last_flags (length items)).
Proof. simpl print_me. now rewrite seq_items_flags, last_flags_map. Qed.

Lemma disk_rows_flags (np : string) (parts : list (Z * string)) (i k : nat) :
  disk_rows np parts i k
  = concat_str (map (disk_row np)
      (combine (combine (List.seq i (length parts)) parts)
               (map (fun j => Nat.eqb j (k - 1)) (List.seq i (length parts))))).
Proof.
  revert i. induction parts as [|[size name] parts IH]; intros i; simpl; [reflexivity|].
  rewrite IH. unfold disk_row. rewrite !append_assoc_s. reflexivity.
Qed.

Lemma print_me_Disk (st size : Z) (parts : list (Z * string)) (p : string) (b : bool) :
  print_me (Disk st size parts) p b
  = p +++ connector b +++ (if st =? SSD then "SSD" else "HDD") +++ ", " +++ str_int size
      +++ " GiB" +++ nl
    +++ concat_str (map (disk_row (p +++ segment b))
          (combine (combine (List.seq 0 (length parts)) parts) (last_flags (length parts)))).
Proof. simpl print_me. now rewrite disk_rows_flags, last_flags_map. Qed.

End TreeFacts.

Module TreeClaims.
Import Tree TreeFacts.

Lemma concat_str_app (l1 l2 : list string) :
  concat_str (l1 ++ l2) = concat_str l1 +++ concat_str l2.
Proof.
  induction l1 as [|x l1 IH]; simpl; [reflexivity|]. now rewrite IH, append_assoc_s.
Qed.

Lemma anc_prefix_snoc (anc : list bool) (b : bool) :
  anc_prefix (anc ++ [b]) = anc_prefix anc +++ segment b.
Proof.
  unfold anc_prefix. rewrite map_app, concat_str_app. simpl. now rewrite append_nil_s.
Qed.

Lemma length_last_flags (k : nat) : length (last_flags k) = k.
Proof. destruct k; simpl; [reflexivity|]. rewrite length_app, repeat_length. simpl. lia. Qed.

Lemma forallb_Forall_node (f : node -> bool) (l : list node) :
  forallb f l = true -> Forall (fun x => f x = true) l.
Proof. intros H. apply List.Forall_forall. intros x Hx. exact (proj1 (forallb_forall f l) H x Hx). Qed.

Lemma render_host_tree (n : node) :
  forall anc b, host_tree n = true -> print_me n (anc_prefix anc) b = spec_render anc n b.
Proof.
  induction n as [a|size name|st size parts|cores mhz|size|name addrs comps IHa IHc
                  |name comps _|items _] using node_ind';
    intros anc b Hh; simpl in Hh; try discriminate.
  - reflexivity.
  - simpl. now rewrite !append_assoc_s.
  - rewrite print_me_Disk. simpl spec_render. rewrite anc_prefix_snoc.
    now rewrite !append_assoc_s.
  - simpl. now rewrite !append_assoc_s.
  - simpl. now rewrite !append_assoc_s.
  - apply andb_true_iff in Hh as [Ha Hc].
    rewrite print_me_Computer. simpl spec_render. rewrite length_app.
    rewrite <- (firstn_skipn (length addrs) (last_flags (length addrs + length comps))) at 1.
    rewrite render_children_app
      by (rewrite length_firstn, length_last_flags; lia).
    rewrite !append_assoc_s. do 6 f_equal.
    + apply render_children_ext.
      apply forallb_Forall_node in Ha. rewrite List.Forall_forall in IHa, Ha |- *.
      intros c Hin f. rewrite <- anc_prefix_snoc. apply IHa; auto.
    + apply render_children_ext.
      apply forallb_Forall_node in Hc. rewrite List.Forall_forall in IHc, Hc |- *.
      intros c Hin f. rewrite <- anc_prefix_snoc. apply IHc; auto.
Qed.

Lemma head_not_space_children (items : list node) (flags : list bool) :
  Forall (fun c => forall f, print_me c "" f = EmptyString \/
            exists x rest, print_me c "" f = String x rest /\ plain x = true) items ->
  render_children (fun c f => print_me c "" f) items flags = EmptyString \/
  exists x rest, render_children (fun c f => print_me c "" f) items flags = String x rest
                 /\ plain x = true.
Proof.
  intros H. revert flags. induction H as [|c items Hc _ IH]; intros [|f flags];
    simpl; auto.
  destruct (Hc f) as [-> | (x & rest & -> & Hx)].
  - apply IH.
  - right. exists x, (rest +++ render_children (fun c f => print_me c "" f) items flags).
    split; [reflexivity | exact Hx].
Qed.

(** Every rendering with the empty prefix is empty or begins with a
    character that is not whitespace. *)
Lemma head_not_space (n : node) :
  forall b, print_me n "" b = EmptyString \/
            exists x rest, print_me n "" b = String x rest /\ plain x = true.
Proof.
  induction n as [a|size name|st size parts|cores mhz|size|name addrs comps _ _
                  |name comps _|items IH] using node_ind';
    intros b;
    try (destruct b; right; do 2 eexists;
         (split; [cbv [print_me String.append connector]; reflexivity | reflexivity])).
  rewrite print_me_Collection. apply head_not_space_children.
  rewrite List.Forall_forall in IH |- *. intros c Hc f. apply IH; auto.
Qed.

(** C1: the network built by [main()] is the §8 scenario network, and it
    renders as the eleven lines of the spec (the header and ten node lines);
    its string form is that text without the final newline. *)
Theorem main_network_render :
  main_network
  = Network "MISIS network"
      [Computer "server1.misis.ru" [Address "192.168.1.1"] [CPU 4 2500; Memory 16000];
       Computer "server2.misis.ru" [Address "10.0.0.1"]
         [CPU 8 3200; Disk MAGNETIC 2000 [(500, "system"); (1500, "data")]]]
  /\ (forall p b,
        print_me main_network p b
        = lines_text
            ["Network: MISIS network";
             "+-Host: server1.misis.ru";
             "| +-192.168.1.1";
             "| +-CPU, 4 cores @ 2500MHz";
             "| \-Memory, 16000 MiB";
             "\-Host: server2.misis.ru";
             "  +-10.0.0.1";
             "  +-CPU, 8 cores @ 3200MHz";
             "  \-HDD, 2000 GiB";
             "    +-[0]: 500 GiB, system";
             "    \-[1]: 1500 GiB, data"])
  /\ str main_network +++ nl
     = lines_text
         ["Network: MISIS network";
          "+-Host: server1.misis.ru";
          "| +-192.168.1.1";
          "| +-CPU, 4 cores @ 2500MHz";
          "| \-Memory, 16000 MiB";
          "\-Host: server2.misis.ru";
          "  +-10.0.0.1";
          "  +-CPU, 8 cores @ 3200MHz";
          "  \-HDD, 2000 GiB";
          "    +-[0]: 500 GiB, system";
          "    \-[1]: 1500 GiB, data"].
Proof. split; [reflexivity | split; [intros p b; reflexivity | vm_compute; reflexivity]]. Qed.

(** C2: in every composite the children at positions [0 .. k-2] receive
    [is_last = false] and the child at [k-1] receives [is_last = true]
    ([last_flags k]): the computers of a [Network], the addresses followed by
    the components of a [Computer], the partition rows of a [Disk] and the
    items of a [BasicCollection]; every node except [Network] and
    [BasicCollection] begins its first line with the connector of the flag
    it receives. *)
Theorem connector_rule :
  (forall name comps p b,
     print_me (Network name comps) p b
     = "Network: " +++ name +++ nl
       +++ render_children (fun c f => print_me c "" f) comps (last_flags (length comps)))
  /\ (forall name addrs comps p b,
        print_me (Computer name addrs comps) p b
        = p +++ connector b +++ "Host: " +++ name +++ nl
          +++ render_children (fun c f => print_me c (p +++ segment b) f) (addrs ++ comps)
                (last_flags (length (addrs ++ comps))))
  /\ (forall st size parts p b,
        print_me (Disk st size parts) p b
        = p +++ connector b +++ (if st =? SSD then "SSD" else "HDD") +++ ", "
            +++ str_int size +++ " GiB" +++ nl
          +++ concat_str (map (disk_row (p +++ segment b))
                (combine (combine (List.seq 0 (length parts)) parts)
                         (last_flags (length parts)))))
  /\ (forall items p b,
        print_me (BasicCollection items) p b
        = render_children (fun c f => print_me c p f) items (last_flags (length items)))
  /\ (forall k, (1 <= k)%nat ->
        (forall i, (i < k - 1)%nat -> nth i (last_flags k) true = false)
        /\ nth (k - 1) (last_flags k) false = true /\ length (last_flags k) = k)
  /\ (forall n p f,
        match n with Network _ _ | BasicCollection _ => False | _ => True end ->
        exists rest, print_me n p f = p +++ connector f +++ rest).
Proof.
  split; [exact print_me_Network|].
  split; [exact print_me_Computer|].
  split; [exact print_me_Disk|].
  split; [exact print_me_Collection|].
  split.
  - intros k Hk. destruct k as [|k]; [lia|]. simpl. rewrite Nat.sub_0_r.
    split; [|split].
    + intros i Hi. rewrite app_nth1 by (rewrite repeat_length; lia).
      clear Hk. revert i Hi. induction k as [|k IH]; intros [|i] Hi; simpl;
        try lia; try reflexivity; apply IH; lia.
    + rewrite app_nth2 by (rewrite repeat_length; lia).
      rewrite repeat_length, Nat.sub_diag. reflexivity.
    + rewrite length_app, repeat_length. simpl. lia.
  - intros n p f Hn. destruct n; try contradiction; eexists; reflexivity.
Qed.

(** C3: below a [Network] root whose hosts, addresses and components are
    of the node kinds of the annotations (no nested [Network] nor
    [BasicCollection]), every line of a node is prefixed by one segment per
    proper ancestor below the root, ["| "] for a non-last and ["  "] for a
    last ancestor; the hosts themselves have the empty prefix. *)
Theorem prefix_rule (name : string) (comps : list node) (p : string) (b : bool)
    (Hh : forallb host_tree comps = true) :
  print_me (Network name comps) p b = spec_render_network name comps.
Proof.
  rewrite print_me_Network. unfold spec_render_network. do 3 f_equal.
  apply render_children_ext. apply forallb_Forall_node in Hh.
  rewrite List.Forall_forall in Hh |- *. intros c Hc f.
  exact (render_host_tree c [] f (Hh c Hc)).
Qed.

Lemma prefix_rule_witness :
  forallb host_tree
    [Computer "a" [Address "x"] [Disk SSD 1 [(1, "p")]]; Computer "b" [] []] = true
  /\ print_me (Network "n" [Computer "a" [Address "x"] [Disk SSD 1 [(1, "p")]];
                            Computer "b" [] []]) "" true
     = spec_render_network "n" [Computer "a" [Address "x"] [Disk SSD 1 [(1, "p")]];
                                Computer "b" [] []].
Proof. split; [reflexivity | apply prefix_rule; reflexivity]. Defined.

(** C7 (amended): [__str__] is the rendering with prefix [""] and
    [is_last = true] with its trailing whitespace removed ([strip()] finds
    nothing to remove at the front, as every such rendering is empty or
    begins with an ASCII character that is not whitespace).  When the
    rendering is a text [body] followed by its final newline, [__str__] is
    exactly [body] if and only if the last character of [body] is not
    whitespace. *)
Theorem str_is_rstrip :
  (forall n, str n = rstrip (print_me n "" true))
  /\ (forall n body,
        print_me n "" true = body +++ nl ->
        (str n = body <-> ends_space body = false)).
Proof.
  assert (Hr : forall n, str n = rstrip (print_me n "" true)).
  { intros n. unfold str. apply strip_plain_head, head_not_space. }
  split; [exact Hr|].
  intros n body Hp. rewrite Hr, Hp, rstrip_app_nl. split.
  - intros E. destruct (ends_space body) eqn:Hb; [|reflexivity].
    exfalso. exact (rstrip_changes body Hb E).
  - apply rstrip_clean.
Qed.

Lemma str_is_rstrip_witness :
  print_me (Address "10.0.0.1") "" true = "\-10.0.0.1" +++ nl
  /\ ends_space "\-10.0.0.1" = false
  /\ str (Address "10.0.0.1") = "\-10.0.0.1".
Proof.
  split; [reflexivity|]. split; [reflexivity|].
  apply (proj2 str_is_rstrip (Address "10.0.0.1") "\-10.0.0.1"); reflexivity.
Defined.

(** C7 fails as stated: [strip()] also removes the whitespace that ends the
    last rendered line, here the trailing space of an address, and likewise
    a trailing no-break space U+00A0 (UTF-8 [C2 A0]). *)
Lemma str_strips_more_cex :
  print_me (Address "a ") "" true = "\-a " +++ nl
  /\ str (Address "a ") = "\-a"
  /\ str (Address "a ") <> "\-a "
  /\ str (Address (String "a" (String (ascii_of_nat 194) (String (ascii_of_nat 160) ""))))
     = "\-a".
Proof.
  split; [reflexivity|]. split; [vm_compute; reflexivity|].
  split; [vm_compute; discriminate | vm_compute; reflexivity].
Qed.

(** C6: on a network whose computers are [Computer] objects,
    [find_computer(name)] raises nothing; it returns the first computer in
    insertion order whose name equals [name], and [None] when there is none.
    On the §8 network it returns the second computer for
    ["server2.misis.ru"] and [None] for ["nope"]. *)
Theorem find_computer_first (nm name : string) (comps : list node)
    (Hc : forallb is_computer comps = true) :
  match find_computer (Network nm comps) name with
  | None => False
  | Some None => Forall (fun d => name_attr d <> Some name) comps
  | Some (Some c) =>
      exists pre post, comps = (pre ++ c :: post)%list /\ name_attr c = Some name
                       /\ Forall (fun d => name_attr d <> Some name) pre
  end
  /\ find_computer main_network "server2.misis.ru"
     = Some (match main_network with Network _ cs => nth_error cs 1 | _ => None end)
  /\ find_computer main_network "nope" = Some None.
Proof.
  split; [|split; reflexivity].
  simpl. induction comps as [|c comps IH]; simpl; [constructor|].
  simpl in Hc. apply andb_true_iff in Hc as [Hc Hr].
  destruct c as [| | | | |cname a cs| |]; try discriminate. simpl.
  destruct (String.eqb cname name) eqn:Heq.
  - apply String.eqb_eq in Heq. subst. exists [], comps. simpl.
    split; [reflexivity | split; [reflexivity | constructor]].
  - apply String.eqb_neq in Heq. specialize (IH Hr).
    destruct (find_computer_loop comps name) as [[c|]|]; try contradiction.
    + destruct IH as (pre & post & -> & Hn & Hpre).
      exists (Computer cname a cs :: pre), post. simpl.
      split; [reflexivity | split; [exact Hn | constructor; [|exact Hpre]]].
      simpl. congruence.
    + constructor; [simpl; congruence | exact IH].
Qed.

Lemma find_computer_first_witness :
  forallb is_computer
    [Computer "a" [] []; Computer "b" [] []; Computer "b" [Address "x"] []] = true
  /\ find_computer (Network "n" [Computer "a" [] []; Computer "b" [] [];
                                  Computer "b" [Address "x"] []]) "b"
     = Some (Some (Computer "b" [] [])).
Proof.
  split; [reflexivity|].
  pose proof (find_computer_first "n" "b"
                [Computer "a" [] []; Computer "b" [] []; Computer "b" [Address "x"] []]
                eq_refl) as [H _].
  revert H. vm_compute. intros _. reflexivity.
Defined.

(** C10: a standalone [Partition] renders the single line
    ["<prefix><connector>[<name>]: <size> GiB"], labelled by its name, while a
    partition row of a [Disk] is labelled by its index and ends with the
    name: ["[<index>]: <size> GiB, <name>"]. *)
Theorem partition_render :
  (forall size name p b,
     print_me (Partition size name) p b
     = p +++ connector b +++ "[" +++ name +++ "]: " +++ str_int size +++ " GiB" +++ nl)
  /\ (forall st sz size name p b,
        print_me (Disk st sz [(size, name)]) p b
        = p +++ connector b +++ (if st =? SSD then "SSD" else "HDD") +++ ", " +++ str_int sz
            +++ " GiB" +++ nl
          +++ (p +++ segment b) +++ "\-" +++ "[0]: " +++ str_int size +++ " GiB, "
            +++ name +++ nl)
  /\ print_me (Partition 500 "system") "" true = "\-[system]: 500 GiB" +++ nl.
Proof. split; [reflexivity | split; [reflexivity | reflexivity]]. Qed.

End TreeClaims.

Module HeapFacts.
Import Tree TreeFacts Heap.

Lemma seq_items_app (f : node -> string -> bool -> string) (a c : list node)
    (p : string) (i k : nat) :
  seq_items f (a ++ c) p i k = seq_items f a p i k +++ seq_items f c p (i + length a) k.
Proof.
  revert i. induction a as [|x a IH]; intros i; simpl.
  - now rewrite Nat.add_0_r.
  - rewrite IH, append_assoc_s. now rewrite Nat.add_succ_r.
Qed.

Lemma all2_length (R : loc -> node -> Prop) (ls : list loc) (ts : list node) :
  all2 R ls ts -> length ls = length ts.
Proof.
  revert ls. induction ts as [|t ts IH]; intros [|l ls] H; simpl in *; try tauto.
  f_equal. apply IH. tauto.
Qed.

Lemma all2_app (R : loc -> node -> Prop) (l1 l2 : list loc) (t1 t2 : list node) :
  all2 R l1 t1 -> all2 R l2 t2 -> all2 R (l1 ++ l2) (t1 ++ t2).
Proof.
  revert l1. induction t1 as [|t t1 IH]; intros [|l l1] H1 H2; simpl in *; try tauto.
  split; [tauto | apply IH; tauto].
Qed.

Lemma all2_Forall (R R' : loc -> node -> Prop) (ls : list loc) (ts : list node) :
  Forall (fun t => forall l, R l t -> R' l t) ts -> all2 R ls ts -> all2 R' ls ts.
Proof.
  intros HF. revert ls. induction HF as [|t ts Ht _ IH]; intros [|l ls] H; simpl in *;
    try tauto.
  split; [apply Ht; tauto | apply IH; tauto].
Qed.

Lemma all2_In (R : loc -> node -> Prop) (ls : list loc) (ts : list node) (c : loc) :
  all2 R ls ts -> In c ls -> exists t, In t ts /\ R c t.
Proof.
  revert ls. induction ts as [|t ts IH]; intros [|l ls] H Hin; simpl in *; try tauto.
  destruct Hin as [<- | Hin].
  - exists t. tauto.
  - destruct (IH ls (proj2 H) Hin) as (t' & ? & ?). exists t'. tauto.
Qed.

(** The value of a subtree depends only on the objects of the subtree. *)
Lemma reifyP_transfer (P Q : loc -> Prop) (h h' : gmap loc obj) (t : node) :
  forall l, reifyP P h l t ->
  (forall k, P k -> h !! k <> None -> Q k /\ h' !! k = h !! k) ->
  reifyP Q h' l t.
Proof.
  induction t as [a|size name|st size parts|cores mhz|size|name addrs comps IHa IHc
                  |name comps IH|items IH] using node_ind';
    intros l [Hl Ht] HPQ; simpl in Ht |- *.
  1-5: destruct (HPQ l Hl) as [HQ Heq]; [congruence|]; split; [exact HQ | congruence].
  - destruct Ht as (la & lc & Hlk & Ha & Hc).
    destruct (HPQ l Hl) as [HQ Heq]; [congruence|]. split; [exact HQ|].
    exists la, lc. split; [congruence|]. split.
    + refine (all2_Forall _ _ _ _ _ Ha). rewrite List.Forall_forall in IHa |- *.
      intros t Hin l' H'. exact (IHa t Hin l' H' HPQ).
    + refine (all2_Forall _ _ _ _ _ Hc). rewrite List.Forall_forall in IHc |- *.
      intros t Hin l' H'. exact (IHc t Hin l' H' HPQ).
  - destruct Ht as (lcs & Hlk & Hc).
    destruct (HPQ l Hl) as [HQ Heq]; [congruence|]. split; [exact HQ|].
    exists lcs. split; [congruence|].
    refine (all2_Forall _ _ _ _ _ Hc). rewrite List.Forall_forall in IH |- *.
    intros t Hin l' H'. exact (IH t Hin l' H' HPQ).
  - destruct Ht as (lis & Hlk & Hc).
    destruct (HPQ l Hl) as [HQ Heq]; [congruence|]. split; [exact HQ|].
    exists lis. split; [congruence|].
    refine (all2_Forall _ _ _ _ _ Hc). rewrite List.Forall_forall in IH |- *.
    intros t Hin l' H'. exact (IH t Hin l' H' HPQ).
Qed.

Lemma reifyP_lookup (P : loc -> Prop) (h : gmap loc obj) (l : loc) (t : node) :
  reifyP P h l t -> P l /\ h !! l <> None.
Proof. destruct t; simpl; intros [Hl Ht]; split; try exact Hl; firstorder congruence. Qed.

(** Every object of the subtree of [l] satisfies the predicate of the value. *)
Lemma reach_reifyP (P : loc -> Prop) (h : gmap loc obj) (l m : loc) :
  reach h l m -> forall t, reifyP P h l t -> P m.
Proof.
  induction 1 as [l|l o c m Hlo Hc _ IH]; intros t Ht.
  - exact (proj1 (reifyP_lookup _ _ _ _ Ht)).
  - destruct t; simpl in Ht; destruct Ht as [_ Ht];
      try (rewrite Ht in Hlo; injection Hlo as <-; simpl in Hc; contradiction).
    + destruct Ht as (la & lc & Hlk & Ha & Hcs). rewrite Hlk in Hlo. injection Hlo as <-.
      simpl in Hc. apply in_app_or in Hc as [Hc | Hc].
      * destruct (all2_In _ _ _ _ Ha Hc) as (t & _ & Ht). exact (IH t Ht).
      * destruct (all2_In _ _ _ _ Hcs Hc) as (t & _ & Ht). exact (IH t Ht).
    + destruct Ht as (lcs & Hlk & Hcs). rewrite Hlk in Hlo. injection Hlo as <-.
      destruct (all2_In _ _ _ _ Hcs Hc) as (t & _ & Ht). exact (IH t Ht).
    + destruct Ht as (lis & Hlk & Hcs). rewrite Hlk in Hlo. injection Hlo as <-.
      destruct (all2_In _ _ _ _ Hcs Hc) as (t & _ & Ht). exact (IH t Ht).
Qed.

Lemma heights_below (ts : list node) (n : nat) :
  (list_max (map height ts) <= n)%nat -> Forall (fun t => (height t <= n)%nat) ts.
Proof.
  intros H. apply list_max_le in H. rewrite List.Forall_forall in H |- *.
  intros t Ht. apply H, in_map, Ht.
Qed.

Lemma write_rows_correct (np : string) (parts : list (Z * string)) :
  forall i k w,
  write_rows np parts i k w
  = Some (tt, mkWorld (heap w) (out w +++ disk_rows np parts i k) (next w)).
Proof.
  induction parts as [|[size name] parts IH]; intros i k w; simpl.
  - unfold retM. destruct w; simpl. now rewrite append_nil_s.
  - unfold bindM. simpl. rewrite IH. simpl. now rewrite !append_assoc_s.
Qed.

Section Render.
Variable P : loc -> Prop.

Definition renders (fuel : nat) (t : node) : Prop :=
  forall l w p b, reifyP P (heap w) l t ->
  print_me_h fuel l p b w = Some (tt, mkWorld (heap w) (out w +++ print_me t p b) (next w)).

Lemma seq_h_correct (fuel : nat) (ts : list node) :
  Forall (renders fuel) ts ->
  forall ls p i k w, all2 (reifyP P (heap w)) ls ts ->
  seq_h (print_me_h fuel) ls p i k w
  = Some (tt, mkWorld (heap w) (out w +++ seq_items print_me ts p i k) (next w)).
Proof.
  induction 1 as [|t ts Ht _ IH]; intros [|l ls] p i k w Hall; simpl in Hall |- *;
    try tauto.
  - unfold retM. destruct w; simpl. now rewrite append_nil_s.
  - destruct Hall as [Hl Hls]. unfold bindM. rewrite (Ht l w p _ Hl).
    rewrite IH by exact Hls. simpl. now rewrite append_assoc_s.
Qed.

Lemma print_me_h_correct (t : node) :
  forall fuel, (height t < fuel)%nat -> renders fuel t.
Proof.
  induction t as [a|size name|st size parts|cores mhz|size|name addrs comps IHa IHc
                  |name comps IH|items IH] using node_ind';
    intros [|fuel] Hf l w p b [_ Ht]; simpl in Hf; try lia; simpl in Ht.
  1-2, 4-5: unfold print_me_h, bindM, load; rewrite Ht; reflexivity.
  - unfold print_me_h, bindM, load. rewrite Ht. simpl.
    rewrite write_rows_correct. simpl. now rewrite !append_assoc_s.
  - destruct Ht as (la & lc & Hlk & Ha & Hc).
    unfold print_me_h at 1. fold print_me_h. unfold bindM at 1, load. rewrite Hlk.
    unfold bindM, write at 1. simpl.
    rewrite (seq_h_correct fuel (addrs ++ comps)).
    + simpl. rewrite length_app, (all2_length _ _ _ Ha), (all2_length _ _ _ Hc).
      rewrite seq_items_app. now rewrite !append_assoc_s.
    + apply List.Forall_app. split.
      * rewrite List.Forall_forall in IHa |- *. intros t Hin.
        apply IHa; [exact Hin|].
        pose proof (heights_below addrs (Nat.max (list_max (map height addrs))
                                                 (list_max (map height comps))))
          as Hb. rewrite List.Forall_forall in Hb. specialize (Hb ltac:(lia) t Hin). lia.
      * rewrite List.Forall_forall in IHc |- *. intros t Hin.
        apply IHc; [exact Hin|].
        pose proof (heights_below comps (Nat.max (list_max (map height addrs))
                                                 (list_max (map height comps))))
          as Hb. rewrite List.Forall_forall in Hb. specialize (Hb ltac:(lia) t Hin). lia.
    + simpl. apply all2_app; assumption.
  - destruct Ht as (lcs & Hlk & Hc).
    unfold print_me_h at 1. fold print_me_h. unfold bindM at 1, load. rewrite Hlk.
    unfold bindM, write at 1. simpl.
    rewrite (seq_h_correct fuel comps).
    + simpl. rewrite (all2_length _ _ _ Hc). now rewrite !append_assoc_s.
    + rewrite List.Forall_forall in IH |- *. intros t Hin.
      apply IH; [exact Hin|].
      pose proof (heights_below comps (list_max (map height comps)) ltac:(lia)) as Hb.
      rewrite List.Forall_forall in Hb. specialize (Hb t Hin). lia.
    + exact Hc.
  - destruct Ht as (lis & Hlk & Hc).
    unfold print_me_h at 1. fold print_me_h. unfold bindM at 1, load. rewrite Hlk.
    rewrite (seq_h_correct fuel items).
    + rewrite (all2_length _ _ _ Hc). reflexivity.
    + rewrite List.Forall_forall in IH |- *. intros t Hin.
      apply IH; [exact Hin|].
      pose proof (heights_below items (list_max (map height items)) ltac:(lia)) as Hb.
      rewrite List.Forall_forall in Hb. specialize (Hb t Hin). lia.
    + exact Hc.
Qed.

End Render.

Lemma all2_impl (R R' : loc -> node -> Prop) (ls : list loc) (ts : list node) :
  (forall l t, R l t -> R' l t) -> all2 R ls ts -> all2 R' ls ts.
Proof.
  intros H. apply all2_Forall. apply List.Forall_forall. intros t _ l. apply H.
Qed.

Lemma wf_alloc (w : world) (o : obj) :
  wf w -> wf (mkWorld (<[next w := o]> (heap w)) (out w) (S (next w))).
Proof.
  intros Hw k Hk. simpl in *. rewrite lookup_insert_ne by lia. apply Hw. lia.
Qed.

Lemma wf_store (w : world) (l : loc) (o : obj) :
  wf w -> (l < next w)%nat -> wf (mkWorld (<[l := o]> (heap w)) (out w) (next w)).
Proof.
  intros Hw Hl k Hk. simpl in *. rewrite lookup_insert_ne by lia. apply Hw. lia.
Qed.

(** Moving the value of a list of subtrees to a later state that leaves
    the identities in [lo, hi) untouched, and widening the range. *)
Lemma all2_move (lo hi lo' hi' : nat) (h h' : gmap loc obj) (ls : list loc) (ts : list node) :
  all2 (reifyP (fun k => lo <= k < hi)%nat h) ls ts ->
  (lo' <= lo)%nat -> (hi <= hi')%nat ->
  (forall k, (lo <= k < hi)%nat -> h' !! k = h !! k) ->
  all2 (reifyP (fun k => lo' <= k < hi')%nat h') ls ts.
Proof.
  intros Hall H1 H2 Hagree. refine (all2_impl _ _ _ _ _ Hall). intros l t Ht.
  apply (reifyP_transfer _ _ _ _ _ _ Ht). intros k Hk _. split; [lia | now apply Hagree].
Qed.

Lemma reifyP_move (lo hi lo' hi' : nat) (h h' : gmap loc obj) (l : loc) (t : node) :
  reifyP (fun k => lo <= k < hi)%nat h l t ->
  (lo' <= lo)%nat -> (hi <= hi')%nat ->
  (forall k, (lo <= k < hi)%nat -> h' !! k = h !! k) ->
  reifyP (fun k => lo' <= k < hi')%nat h' l t.
Proof.
  intros Ht H1 H2 Hagree. apply (reifyP_transfer _ _ _ _ _ _ Ht).
  intros k Hk _. split; [lia | now apply Hagree].
Qed.

Section Clone.

(** [clone] copies a subtree whose identities are all below [next w] into
    new identities in [next w, next w'), leaving the older objects and the
    output untouched. *)
Definition clones (fuel : nat) (t : node) : Prop :=
  forall l w, wf w -> reifyP (fun k => 0 <= k < next w)%nat (heap w) l t ->
  exists l' w', clone fuel l w = Some (l', w')
    /\ (next w <= next w')%nat /\ wf w'
    /\ (forall k, (k < next w)%nat -> heap w' !! k = heap w !! k)
    /\ out w' = out w
    /\ reifyP (fun k => next w <= k < next w')%nat (heap w') l' t.

Lemma clone_list_correct (fuel : nat) (ts : list node) :
  Forall (clones fuel) ts ->
  forall ls w, wf w -> all2 (reifyP (fun k => 0 <= k < next w)%nat (heap w)) ls ts ->
  exists ls' w', clone_list (clone fuel) ls w = Some (ls', w')
    /\ (next w <= next w')%nat /\ wf w'
    /\ (forall k, (k < next w)%nat -> heap w' !! k = heap w !! k)
    /\ out w' = out w
    /\ all2 (reifyP (fun k => next w <= k < next w')%nat (heap w')) ls' ts.
Proof.
  induction 1 as [|t ts Ht _ IH]; intros [|l ls] w Hw Hall; simpl in Hall; try tauto.
  - exists [], w. repeat split; try lia; auto.
  - destruct Hall as [Hl Hls].
    destruct (Ht l w Hw Hl) as (l1 & w1 & Hc1 & Hn1 & Hw1 & Ha1 & Ho1 & Hr1).
    assert (Hls1 : all2 (reifyP (fun k => 0 <= k < next w1)%nat (heap w1)) ls ts).
    { apply (all2_move 0 (next w) 0 (next w1) (heap w)); try lia.
      - exact Hls.
      - intros k Hk. apply Ha1. lia. }
    destruct (IH ls w1 Hw1 Hls1) as (ls2 & w2 & Hc2 & Hn2 & Hw2 & Ha2 & Ho2 & Hr2).
    exists (l1 :: ls2), w2. split.
    { simpl. unfold bindM. rewrite Hc1, Hc2. reflexivity. }
    split; [lia|]. split; [exact Hw2|]. split.
    { intros k Hk. rewrite Ha2 by lia. apply Ha1. lia. }
    split; [congruence|]. simpl. split.
    + apply (reifyP_move (next w) (next w1) _ _ (heap w1)); try lia; [exact Hr1|].
      intros k Hk. apply Ha2. lia.
    + apply (all2_move (next w1) (next w2) _ _ (heap w2)); try lia; [exact Hr2|].
      intros k Hk. reflexivity.
Qed.

Lemma add_partitions_correct (d : loc) (st sz : Z) (parts : list (Z * string)) :
  forall acc w, heap w !! d = Some (ODisk st sz acc) ->
  add_partitions d parts w
  = Some (tt, mkWorld (<[d := ODisk st sz (acc ++ parts)]> (heap w)) (out w) (next w)).
Proof.
  induction parts as [|[size name] parts IH]; intros acc w Hd; simpl.
  - rewrite app_nil_r, insert_id by exact Hd. now destruct w.
  - unfold bindM, add_partition, bindM, load. rewrite Hd. simpl.
    rewrite (IH (acc ++ [(size, name)])%list) by (simpl; apply lookup_insert_eq).
    simpl. rewrite insert_insert_eq, <- app_assoc. reflexivity.
Qed.

Lemma clones_children (fuel : nat) (ts : list node) (n : nat) :
  Forall (fun t => forall fuel, (height t < fuel)%nat -> clones fuel t) ts ->
  (list_max (map height ts) <= n)%nat -> (n < fuel)%nat ->
  Forall (clones fuel) ts.
Proof.
  intros IH Hm Hn. pose proof (heights_below ts n Hm) as Hb.
  rewrite List.Forall_forall in IH, Hb |- *. intros t Hin.
  apply IH; [exact Hin|]. specialize (Hb t Hin). lia.
Qed.

Ltac leaf_clone w o Ht :=
  exists (next w), (mkWorld (<[next w := o]> (heap w)) (out w) (S (next w)));
  split; [unfold clone, bindM, load; rewrite Ht; reflexivity|];
  simpl; split; [lia|]; split; [apply wf_alloc; assumption|];
  split; [intros ? ?; apply lookup_insert_ne; lia|];
  split; [reflexivity|]; split; [lia | apply lookup_insert_eq].

Lemma clone_correct (t : node) : forall fuel, (height t < fuel)%nat -> clones fuel t.
Proof.
  induction t as [a|size name|st size parts|cores mhz|size|name addrs comps IHa IHc
                  |name comps IH|items IH] using node_ind';
    intros [|fuel] Hf l w Hw [_ Ht]; simpl in Hf; try lia; simpl in Ht.
  - leaf_clone w (OAddress a) Ht.
  - leaf_clone w (OPartition size name) Ht.
  - exists (next w), (mkWorld (<[next w := ODisk st size parts]> (heap w)) (out w) (S (next w))).
    split.
    { unfold clone, bindM at 1, load. rewrite Ht. unfold bindM, alloc.
      rewrite (add_partitions_correct _ _ _ _ []) by apply lookup_insert_eq.
      simpl. unfold retM. rewrite insert_insert_eq. reflexivity. }
    simpl. split; [lia|]. split; [apply wf_alloc; assumption|].
    split; [intros ? ?; apply lookup_insert_ne; lia|].
    split; [reflexivity|]. split; [lia | apply lookup_insert_eq].
  - leaf_clone w (OCPU cores mhz) Ht.
  - leaf_clone w (OMemory size) Ht.
  - destruct Ht as (la & lc & Hlk & Ha & Hc).
    assert (HFa : Forall (clones fuel) addrs)
      by (apply (clones_children _ _ _ IHa (Nat.le_max_l _ (list_max (map height comps)))); lia).
    assert (HFc : Forall (clones fuel) comps)
      by (apply (clones_children _ _ _ IHc (Nat.le_max_r (list_max (map height addrs)) _)); lia).
    pose (w1 := mkWorld (<[next w := OComputer name [] []]> (heap w)) (out w) (S (next w))).
    assert (Hw1 : wf w1) by (apply wf_alloc, Hw).
    assert (Ha1 : all2 (reifyP (fun k => 0 <= k < next w1)%nat (heap w1)) la addrs).
    { apply (all2_move 0 (next w) 0 (next w1) (heap w)); simpl; try lia; [exact Ha|].
      intros k Hk. apply lookup_insert_ne. lia. }
    destruct (clone_list_correct fuel addrs HFa la w1 Hw1 Ha1)
      as (la' & w2 & Hc2 & Hn2 & Hw2 & Hag2 & Ho2 & Hr2).
    pose (w3 := mkWorld (<[next w := OComputer name la' []]> (heap w2)) (out w2) (next w2)).
    assert (Hw3 : wf w3) by (apply wf_store; [exact Hw2 | simpl in Hn2; lia]).
    assert (Hc3 : all2 (reifyP (fun k => 0 <= k < next w3)%nat (heap w3)) lc comps).
    { apply (all2_move 0 (next w) 0 (next w3) (heap w)); simpl in *; try lia; [exact Hc|].
      intros k Hk. rewrite lookup_insert_ne by lia. rewrite Hag2 by (simpl; lia).
      simpl. apply lookup_insert_ne. lia. }
    destruct (clone_list_correct fuel comps HFc lc w3 Hw3 Hc3)
      as (lc' & w4 & Hc4 & Hn4 & Hw4 & Hag4 & Ho4 & Hr4).
    exists (next w), (mkWorld (<[next w := OComputer name la' lc']> (heap w4)) (out w4) (next w4)).
    split.
    { unfold clone at 1. fold clone. unfold bindM at 1, load. rewrite Hlk.
      unfold bindM at 1, alloc. change (mkWorld _ (out w) (S (next w))) with w1.
      unfold bindM at 1. rewrite Hc2. unfold bindM at 1, store.
      change (mkWorld _ (out w2) (next w2)) with w3.
      unfold bindM at 1. rewrite Hc4. unfold bindM, store, retM. reflexivity. }
    simpl in *. split; [lia|]. split; [apply wf_store; [exact Hw4 | lia]|].
    split.
    { intros k Hk. rewrite lookup_insert_ne by lia. rewrite Hag4 by lia.
      rewrite lookup_insert_ne by lia. rewrite Hag2 by lia. apply lookup_insert_ne. lia. }
    split; [congruence|]. split; [lia|].
    exists la', lc'. split; [apply lookup_insert_eq|]. split.
    + apply (all2_move (S (next w)) (next w2) _ _ (heap w2)); try lia; [exact Hr2|].
      intros k Hk. rewrite lookup_insert_ne by lia. rewrite Hag4 by lia.
      apply lookup_insert_ne. lia.
    + apply (all2_move (next w2) (next w4) _ _ (heap w4)); try lia; [exact Hr4|].
      intros k Hk. apply lookup_insert_ne. lia.
  - destruct Ht as (lcs & Hlk & Hc).
    assert (HFc : Forall (clones fuel) comps)
      by (apply (clones_children _ _ _ IH (le_n _)); lia).
    pose (w1 := mkWorld (<[next w := ONetwork name []]> (heap w)) (out w) (S (next w))).
    assert (Hw1 : wf w1) by (apply wf_alloc, Hw).
    assert (Hc1 : all2 (reifyP (fun k => 0 <= k < next w1)%nat (heap w1)) lcs comps).
    { apply (all2_move 0 (next w) 0 (next w1) (heap w)); simpl; try lia; [exact Hc|].
      intros k Hk. apply lookup_insert_ne. lia. }
    destruct (clone_list_correct fuel comps HFc lcs w1 Hw1 Hc1)
      as (lc' & w2 & Hc2 & Hn2 & Hw2 & Hag2 & Ho2 & Hr2).
    exists (next w), (mkWorld (<[next w := ONetwork name lc']> (heap w2)) (out w2) (next w2)).
    split.
    { unfold clone at 1. fold clone. unfold bindM at 1, load. rewrite Hlk.
      unfold bindM at 1, alloc. change (mkWorld _ (out w) (S (next w))) with w1.
      unfold bindM at 1. rewrite Hc2. unfold bindM, store, retM. reflexivity. }
    simpl in *. split; [lia|]. split; [apply wf_store; [exact Hw2 | lia]|].
    split.
    { intros k Hk. rewrite lookup_insert_ne by lia. rewrite Hag2 by lia.
      apply lookup_insert_ne. lia. }
    split; [congruence|]. split; [lia|].
    exists lc'. split; [apply lookup_insert_eq|].
    apply (all2_move (S (next w)) (next w2) _ _ (heap w2)); try lia; [exact Hr2|].
    intros k Hk. apply lookup_insert_ne. lia.
  - destruct Ht as (lis & Hlk & Hc).
    assert (HFc : Forall (clones fuel) items)
      by (apply (clones_children _ _ _ IH (le_n _)); lia).
    pose (w1 := mkWorld (<[next w := OBasicCollection []]> (heap w)) (out w) (S (next w))).
    assert (Hw1 : wf w1) by (apply wf_alloc, Hw).
    assert (Hc1 : all2 (reifyP (fun k => 0 <= k < next w1)%nat (heap w1)) lis items).
    { apply (all2_move 0 (next w) 0 (next w1) (heap w)); simpl; try lia; [exact Hc|].
      intros k Hk. apply lookup_insert_ne. lia. }
    destruct (clone_list_correct fuel items HFc lis w1 Hw1 Hc1)
      as (li' & w2 & Hc2 & Hn2 & Hw2 & Hag2 & Ho2 & Hr2).
    exists (next w), (mkWorld (<[next w := OBasicCollection li']> (heap w2)) (out w2) (next w2)).
    split.
    { unfold clone at 1. fold clone. unfold bindM at 1, load. rewrite Hlk.
      unfold bindM at 1, alloc. change (mkWorld _ (out w) (S (next w))) with w1.
      unfold bindM at 1. rewrite Hc2. unfold bindM, store, retM. reflexivity. }
    simpl in *. split; [lia|]. split; [apply wf_store; [exact Hw2 | lia]|].
    split.
    { intros k Hk. rewrite lookup_insert_ne by lia. rewrite Hag2 by lia.
      apply lookup_insert_ne. lia. }
    split; [congruence|]. split; [lia|].
    exists li'. split; [apply lookup_insert_eq|].
    apply (all2_move (S (next w)) (next w2) _ _ (heap w2)); try lia; [exact Hr2|].
    intros k Hk. apply lookup_insert_ne. lia.
Qed.

End Clone.

Lemma all2_impl_in (R R' : loc -> node -> Prop) (ls : list loc) (ts : list node) :
  (forall l t, In l ls -> In t ts -> R l t -> R' l t) -> all2 R ls ts -> all2 R' ls ts.
Proof.
  revert ls. induction ts as [|t ts IH]; intros [|l ls] H Hall; simpl in *; try tauto.
  split.
  - apply H; tauto.
  - apply IH; [|tauto]. intros l' t' H1 H2. apply H; tauto.
Qed.

(** The predicate of a value can be replaced by any property of the
    objects of the subtree. *)
Lemma reifyP_reach (P Q : loc -> Prop) (h : gmap loc obj) (t : node) :
  forall l, reifyP P h l t -> (forall m, reach h l m -> Q m) -> reifyP Q h l t.
Proof.
  induction t as [a|size name|st size parts|cores mhz|size|name addrs comps IHa IHc
                  |name comps IH|items IH] using node_ind';
    intros l [Hl Ht] HQ; simpl in Ht |- *; (split; [apply HQ, reach_refl|]).
  1-5: exact Ht.
  - destruct Ht as (la & lc & Hlk & Ha & Hc). exists la, lc.
    split; [exact Hlk|]. split.
    + refine (all2_impl_in _ _ _ _ _ Ha). intros l' t' Hl' Ht' H'.
      rewrite List.Forall_forall in IHa. apply (IHa t' Ht' l' H').
      intros m Hm. apply HQ. apply (reach_step _ _ _ l' _ Hlk); [|exact Hm].
      simpl. apply in_or_app. now left.
    + refine (all2_impl_in _ _ _ _ _ Hc). intros l' t' Hl' Ht' H'.
      rewrite List.Forall_forall in IHc. apply (IHc t' Ht' l' H').
      intros m Hm. apply HQ. apply (reach_step _ _ _ l' _ Hlk); [|exact Hm].
      simpl. apply in_or_app. now right.
  - destruct Ht as (lcs & Hlk & Hc). exists lcs. split; [exact Hlk|].
    refine (all2_impl_in _ _ _ _ _ Hc). intros l' t' Hl' Ht' H'.
    rewrite List.Forall_forall in IH. apply (IH t' Ht' l' H').
    intros m Hm. apply HQ. exact (reach_step _ _ _ l' _ Hlk Hl' Hm).
  - destruct Ht as (lis & Hlk & Hc). exists lis. split; [exact Hlk|].
    refine (all2_impl_in _ _ _ _ _ Hc). intros l' t' Hl' Ht' H'.
    rewrite List.Forall_forall in IH. apply (IH t' Ht' l' H').
    intros m Hm. apply HQ. exact (reach_step _ _ _ l' _ Hlk Hl' Hm).
Qed.

(** In a well-formed state every object of a value is below [next]. *)
Lemma reify_below (w : world) (l : loc) (t : node) :
  wf w -> reify (heap w) l t -> reifyP (fun k => 0 <= k < next w)%nat (heap w) l t.
Proof.
  intros Hw Ht. apply (reifyP_transfer _ _ _ _ _ _ Ht). intros k _ Hk. split; [|reflexivity].
  destruct (Nat.lt_ge_cases k (next w)) as [H|H]; [lia|]. exfalso. exact (Hk (Hw k H)).
Qed.

Lemma reifyP_reify (P : loc -> Prop) (h : gmap loc obj) (l : loc) (t : node) :
  reifyP P h l t -> reify h l t.
Proof.
  intros Ht. apply (reifyP_transfer _ _ _ _ _ _ Ht). intros k _ _. split; [exact I | reflexivity].
Qed.

Lemma render_text_reify (fuel : nat) (h : gmap loc obj) (l : loc) (t : node) (p : string)
    (b : bool) :
  reify h l t -> (height t < fuel)%nat -> render_text fuel h l p b = Some (print_me t p b).
Proof.
  intros Ht Hf. unfold render_text.
  rewrite (print_me_h_correct (fun _ => True) t fuel Hf l (mkWorld h "" 0%nat) p b Ht).
  reflexivity.
Qed.

(** An append mutation changes only its target and the identities it
    creates. *)
Lemma run_cmd_frame (c : cmd) (w w' : world) (r : loc) :
  run_cmd c w = Some (r, w') ->
  (next w <= next w')%nat
  /\ forall k, k <> target c -> (k < next w)%nat -> heap w' !! k = heap w !! k.
Proof.
  destruct c as [t e|t [a|a]|t x|t x|t size name]; simpl;
    unfold add, add_address, add_component, add_computer, add_partition,
      bindM, load, store, alloc, retM, raise;
    destruct (heap w !! t) as [[]|]; try discriminate; cbn; intros H;
    injection H as <- <-; simpl; (split; [lia|]); intros k Hk1 Hk2;
    rewrite ?lookup_insert_ne by lia; reflexivity.
Qed.

Lemma run_cmds_frame (cs : list cmd) :
  forall w w' u, run_cmds cs w = Some (u, w') ->
  (next w <= next w')%nat
  /\ forall k, Forall (fun c => k <> target c) cs -> (k < next w)%nat ->
     heap w' !! k = heap w !! k.
Proof.
  induction cs as [|c cs IH]; intros w w' u H; simpl in H.
  - unfold retM in H. injection H as _ <-. split; [lia|]. reflexivity.
  - unfold bindM in H. destruct (run_cmd c w) as [[r w1]|] eqn:E; [|discriminate].
    apply run_cmd_frame in E as [E1 E2]. destruct (IH w1 w' u H) as [H1 H2].
    split; [lia|]. intros k Hk Hlt. apply List.Forall_cons_iff in Hk as [Hk1 Hk2].
    rewrite H2 by (exact Hk2 || lia). now apply E2.
Qed.

End HeapFacts.

Module HeapClaims.
Import Tree TreeFacts Heap HeapFacts.

(** A state with one computer ["h"] (identity 0) holding one address
    (identity 1). *)
Definition w_host : world :=
  mkWorld (<[0%nat := OComputer "h" [1%nat] []]> (<[1%nat := OAddress "a"]> ∅)) "" 2%nat.

Definition t_host : node := Computer "h" [Address "a"] [].

Lemma w_host_wf : wf w_host.
Proof.
  intros k Hk. simpl in Hk |- *. rewrite !lookup_insert_ne by lia. apply lookup_empty.
Qed.

Lemma w_host_reify : reify (heap w_host) 0%nat t_host.
Proof.
  simpl. split; [exact I|]. exists [1%nat], []. split; [reflexivity|].
  split; [|exact I]. split; [|exact I]. split; [exact I | reflexivity].
Qed.

(** C4: [clone] on a valid value returns a new object; the objects of the
    original keep their state; no object reachable from the clone is an
    object of the original (no shared child node, and each list attribute
    belongs to its object); the clone and the original render the same
    text for every [prefix] and [is_last]; and any sequence of append
    mutations ([add], [add_address], [add_component], [add_computer],
    [add_partition]) whose targets are not objects of the original, in
    particular mutations of the clone's subtree, leaves the rendering of
    the original unchanged. *)
Theorem clone_deep (w : world) (l : loc) (t : node) (fuel : nat)
    (Hw : wf w) (Ht : reify (heap w) l t) (Hf : (height t < fuel)%nat) :
  exists l' w', clone fuel l w = Some (l', w')
    /\ l' <> l
    /\ (forall k, (k < next w)%nat -> heap w' !! k = heap w !! k)
    /\ (forall m, reach (heap w') l' m -> ~ reach (heap w) l m)
    /\ (forall fuel' p b, (height t < fuel')%nat ->
          render_text fuel' (heap w') l' p b = Some (print_me t p b)
          /\ render_text fuel' (heap w) l p b = Some (print_me t p b))
    /\ (forall cmds w'' u, Forall (fun c => ~ reach (heap w) l (target c)) cmds ->
          run_cmds cmds w' = Some (u, w'') ->
          forall fuel' p b, (height t < fuel')%nat ->
          render_text fuel' (heap w'') l p b = render_text fuel' (heap w) l p b).
Proof.
  pose proof (reify_below w l t Hw Ht) as Hb.
  destruct (clone_correct t fuel Hf l w Hw Hb)
    as (l' & w' & Hcl & Hn & Hw' & Hag & Hout & Hr).
  exists l', w'. split; [exact Hcl|].
  pose proof (proj1 (reifyP_lookup _ _ _ _ Hr)) as Hl'.
  pose proof (proj1 (reifyP_lookup _ _ _ _ Hb)) as Hl. simpl in Hl, Hl'.
  split; [lia|]. split; [exact Hag|]. split.
  { intros m Hm1 Hm2. pose proof (reach_reifyP _ _ _ _ Hm1 t Hr).
    pose proof (reach_reifyP _ _ _ _ Hm2 t Hb). simpl in *. lia. }
  split.
  { intros fuel' p b Hf'. split.
    - apply render_text_reify; [|exact Hf']. exact (reifyP_reify _ _ _ _ Hr).
    - apply render_text_reify; assumption. }
  intros cmds w'' u Hcmds Hrun fuel' p b Hf'.
  destruct (run_cmds_frame cmds w' w'' u Hrun) as [_ Hfr].
  assert (HQ : reifyP (fun k => reach (heap w) l k /\ (k < next w)%nat) (heap w) l t).
  { apply (reifyP_reach _ _ _ _ _ Hb). intros m Hm. split; [exact Hm|].
    pose proof (reach_reifyP _ _ _ _ Hm t Hb). simpl in *. lia. }
  assert (Ht'' : reify (heap w'') l t).
  { apply (reifyP_transfer _ _ _ _ _ _ HQ). intros k [Hk1 Hk2] _. split; [exact I|].
    rewrite Hfr by (try lia; rewrite List.Forall_forall in Hcmds |- *;
                    intros c Hc Heq; apply (Hcmds c Hc); congruence).
    now apply Hag. }
  rewrite (render_text_reify _ _ _ t p b Ht'' Hf'), (render_text_reify _ _ _ t p b Ht Hf').
  reflexivity.
Qed.

Lemma clone_deep_witness :
  exists l' w', clone 2%nat 0%nat w_host = Some (l', w') /\ l' <> 0%nat
    /\ render_text 2%nat (heap w') l' "" true = Some (print_me t_host "" true).
Proof.
  destruct (clone_deep w_host 0%nat t_host 2%nat w_host_wf w_host_reify ltac:(simpl; lia))
    as (l' & w' & H1 & H2 & _ & _ & H5 & _).
  exists l', w'. split; [exact H1|]. split; [exact H2|].
  apply (H5 2%nat "" true). simpl. lia.
Defined.

(** C8, counterexample: [find] compares with [==], which for these classes
    is identity.  A collection holding [Address("v")] does not find a fresh
    [Address("v")]; it finds only the very object it holds. *)
Lemma find_fresh_address_cex :
  exists w', find_fresh_scenario (mkWorld ∅ "" 0%nat) = Some ((None, Some 1%nat), w').
Proof. eexists. vm_compute. reflexivity. Qed.

(** C8, amended: [find(elem)] on a [BasicCollection] scans the items in
    order and returns the first item identical to [elem], that is [elem]
    itself when the collection holds it and [None] otherwise, without
    changing the state. *)
Theorem find_identity (w : world) (c : loc) (items : list loc) (elem : loc)
    (Hc : heap w !! c = Some (OBasicCollection items)) :
  find c elem w = Some ((if existsb (Nat.eqb elem) items then Some elem else None), w).
Proof.
  unfold find, bindM, load. rewrite Hc. unfold retM. f_equal. f_equal. clear Hc.
  induction items as [|x items IH]; [reflexivity|].
  simpl. rewrite IH. unfold py_eq. rewrite (Nat.eqb_sym elem x).
  destruct (Nat.eqb x elem) eqn:E; [|reflexivity].
  apply Nat.eqb_eq in E. now subst.
Qed.

Lemma find_identity_witness :
  find 0%nat 1%nat (mkWorld (<[0%nat := OBasicCollection [2%nat; 1%nat]]> ∅) "" 3%nat)
  = Some (Some 1%nat, mkWorld (<[0%nat := OBasicCollection [2%nat; 1%nat]]> ∅) "" 3%nat).
Proof. apply (find_identity _ 0%nat [2%nat; 1%nat] 1%nat). reflexivity. Defined.

(** C9: [print_me] on a valid value (a finite, acyclic object graph, with
    the Python call depth above its height) does not raise, leaves every
    object and the identity counter unchanged, and only appends its text
    to the output. *)
Theorem render_frame (w : world) (l : loc) (t : node) (fuel : nat) (p : string) (b : bool)
    (Ht : reify (heap w) l t) (Hf : (height t < fuel)%nat) :
  print_me_h fuel l p b w = Some (tt, mkWorld (heap w) (out w +++ print_me t p b) (next w)).
Proof. exact (print_me_h_correct (fun _ => True) t fuel Hf l w p b Ht). Qed.

Lemma render_frame_witness :
  print_me_h 2%nat 0%nat "" true w_host
  = Some (tt, mkWorld (heap w_host) (out w_host +++ print_me t_host "" true) (next w_host)).
Proof. apply (render_frame w_host 0%nat t_host 2%nat "" true w_host_reify). simpl. lia. Defined.

End HeapClaims.

Module MutatorFacts.
Import Tree TreeFacts Heap HeapFacts.

Lemma all2_det (R1 R2 : loc -> node -> Prop) (ts1 : list node) :
  Forall (fun t => forall l t2, R1 l t -> R2 l t2 -> t = t2) ts1 ->
  forall ls ts2, all2 R1 ls ts1 -> all2 R2 ls ts2 -> ts1 = ts2.
Proof.
  induction 1 as [|t ts Ht _ IH]; intros [|l ls] [|t2 ts2] H1 H2; simpl in *; try tauto.
  f_equal; [exact (Ht l t2 (proj1 H1) (proj1 H2)) | exact (IH ls ts2 (proj2 H1) (proj2 H2))].
Qed.

(** An object graph has at most one value. *)
Lemma reifyP_det (P Q : loc -> Prop) (h : gmap loc obj) (t1 : node) :
  forall l t2, reifyP P h l t1 -> reifyP Q h l t2 -> t1 = t2.
Proof.
  induction t1 as [a|size name|st size parts|cores mhz|size|name addrs comps IHa IHc
                  |name comps IH|items IH] using node_ind';
    intros l t2 [_ H1] H2; simpl in H1;
    destruct t2 as [a2|size2 name2|st2 size2 parts2|cores2 mhz2|size2|name2 addrs2 comps2
                   |name2 comps2|items2]; destruct H2 as [_ H2]; simpl in H2;
    repeat match goal with
           | H : exists _, _ |- _ => destruct H as [? H]
           | H : _ /\ _ |- _ => destruct H as [? H]
           end;
    repeat match goal with
           | H1 : h !! l = Some _, H2 : h !! l = Some _ |- _ =>
               rewrite H1 in H2; simplify_eq/=
           end;
    try discriminate; try reflexivity.
  all: f_equal; eapply all2_det; eassumption.
Qed.

Lemma height_in (ts : list node) (t : node) :
  In t ts -> (height t <= list_max (map height ts))%nat.
Proof.
  intros Hin. pose proof (heights_below ts _ (le_n _)) as H.
  rewrite List.Forall_forall in H. exact (H t Hin).
Qed.

(** A child of an object has a value of smaller height. *)
Lemma reifyP_child (P : loc -> Prop) (h : gmap loc obj) (l c : loc) (t : node) (o : obj) :
  reifyP P h l t -> h !! l = Some o -> In c (children o) ->
  exists tc, reifyP P h c tc /\ (height tc < height t)%nat.
Proof.
  intros Ht0 Hl Hin. destruct t; destruct Ht0 as [_ Ht]; simpl in Ht;
    try (rewrite Ht in Hl; injection Hl as <-; simpl in Hin; contradiction).
  - destruct Ht as (la & lc & Hlk & Ha & Hc). rewrite Hlk in Hl. injection Hl as <-.
    simpl in Hin |- *. apply in_app_or in Hin as [Hin | Hin].
    + destruct (all2_In _ _ _ _ Ha Hin) as (tc & Htc & Hr). exists tc. split; [exact Hr|].
      pose proof (height_in _ _ Htc). lia.
    + destruct (all2_In _ _ _ _ Hc Hin) as (tc & Htc & Hr). exists tc. split; [exact Hr|].
      pose proof (height_in _ _ Htc). lia.
  - destruct Ht as (lcs & Hlk & Hc). rewrite Hlk in Hl. injection Hl as <-.
    destruct (all2_In _ _ _ _ Hc Hin) as (tc & Htc & Hr). exists tc. split; [exact Hr|].
    pose proof (height_in _ _ Htc). simpl. lia.
  - destruct Ht as (lis & Hlk & Hc). rewrite Hlk in Hl. injection Hl as <-.
    destruct (all2_In _ _ _ _ Hc Hin) as (tc & Htc & Hr). exists tc. split; [exact Hr|].
    pose proof (height_in _ _ Htc). simpl. lia.
Qed.

Lemma reach_height (P : loc -> Prop) (h : gmap loc obj) (c m : loc) :
  reach h c m -> forall tc, reifyP P h c tc ->
  exists t', reifyP P h m t' /\ (height t' <= height tc)%nat.
Proof.
  induction 1 as [l|l o c m Hlo Hc _ IH]; intros tc Htc.
  - exists tc. split; [exact Htc | lia].
  - destruct (reifyP_child _ _ _ _ _ _ Htc Hlo Hc) as (t1 & Ht1 & Hlt).
    destruct (IH t1 Ht1) as (t' & Ht' & Hle). exists t'. split; [exact Ht' | lia].
Qed.

(** The object graph of a value has no cycle through its root. *)
Lemma reifyP_acyclic (P : loc -> Prop) (h : gmap loc obj) (l c : loc) (t : node) (o : obj) :
  reifyP P h l t -> h !! l = Some o -> In c (children o) -> ~ reach h c l.
Proof.
  intros Ht Hl Hin Hr.
  destruct (reifyP_child _ _ _ _ _ _ Ht Hl Hin) as (tc & Htc & Hlt).
  destruct (reach_height _ _ _ _ Hr tc Htc) as (t' & Ht' & Hle).
  rewrite (reifyP_det _ _ _ _ _ _ Ht' Ht) in Hle. lia.
Qed.

(** A value is kept by any change of the heap outside its objects. *)
Lemma reify_frame (h h' : gmap loc obj) (l : loc) (t : node) :
  reify h l t -> (forall k, reach h l k -> h' !! k = h !! k) -> reify h' l t.
Proof.
  intros Ht Hag. assert (Hr : reifyP (reach h l) h l t) by (exact (reifyP_reach _ _ _ _ _ Ht (fun m Hm => Hm))).
  apply (reifyP_transfer _ _ _ _ _ _ Hr). intros k Hk _. split; [exact I | now apply Hag].
Qed.

Lemma all2_frame (h h' : gmap loc obj) (ls : list loc) (ts : list node) :
  all2 (reify h) ls ts ->
  (forall li k, In li ls -> reach h li k -> h' !! k = h !! k) ->
  all2 (reify h') ls ts.
Proof.
  intros Hall Hag. refine (all2_impl_in _ _ _ _ _ Hall). intros li t Hli _ Ht.
  apply (reify_frame _ _ _ _ Ht). intros k Hk. exact (Hag li k Hli Hk).
Qed.

Lemma reach_trans_child (h : gmap loc obj) (l c k : loc) (o : obj) :
  h !! l = Some o -> In c (children o) -> reach h c k -> reach h l k.
Proof. intros Hl Hc Hk. exact (reach_step _ _ _ _ _ Hl Hc Hk). Qed.

(** In a well-formed state the objects of a value are below [next]. *)
Lemma reach_below (w : world) (l k : loc) (t : node) :
  wf w -> reify (heap w) l t -> reach (heap w) l k -> (k < next w)%nat.
Proof.
  intros Hw Ht Hk. pose proof (reach_reifyP _ _ _ _ Hk t (reify_below w l t Hw Ht)).
  simpl in *. lia.
Qed.

(** Storing a new object at the root [c] of a value keeps the values of its
    children and of any object that does not reach [c]. *)
Lemma children_after_store (h : gmap loc obj) (c : loc) (t : node) (o o' : obj)
    (ls : list loc) (ts : list node) :
  reify h c t -> h !! c = Some o -> (forall li, In li ls -> In li (children o)) ->
  all2 (reify h) ls ts -> all2 (reify (<[c := o']> h)) ls ts.
Proof.
  intros Ht Hc Hsub Hall. apply (all2_frame _ _ _ _ Hall). intros li k Hli Hk.
  apply lookup_insert_ne. intros ->. exact (reifyP_acyclic _ _ _ _ _ _ Ht Hc (Hsub li Hli) Hk).
Qed.

Lemma value_after_store (h : gmap loc obj) (c x : loc) (tx : node) (o' : obj) :
  reify h x tx -> ~ reach h x c -> reify (<[c := o']> h) x tx.
Proof.
  intros Hx Hxc. apply (reify_frame _ _ _ _ Hx). intros k Hk.
  apply lookup_insert_ne. intros ->. exact (Hxc Hk).
Qed.

(** A leaf reaches only itself. *)
Lemma reach_leaf (h : gmap loc obj) (x m : loc) (o : obj) :
  h !! x = Some o -> children o = [] -> reach h x m -> m = x.
Proof.
  intros Hx Hc Hr. inversion Hr as [|l o' c m' Hl Hin _]; [reflexivity|].
  subst. rewrite Hx in Hl. injection Hl as <-. rewrite Hc in Hin. contradiction.
Qed.

(** A state holding one object of each kind: a computer ["h"] (0) with an
    address (1), a CPU (2), a network (3), a disk (4) and a collection (5). *)
Definition w_kit : world :=
  mkWorld (<[0%nat := OComputer "h" [1%nat] []]> (<[1%nat := OAddress "a"]>
          (<[2%nat := OCPU 4 2500]> (<[3%nat := ONetwork "n" []]>
          (<[4%nat := ODisk MAGNETIC 2000 []]> (<[5%nat := OBasicCollection []]> ∅))))))
    "" 6%nat.

Lemma w_kit_wf : wf w_kit.
Proof.
  intros k Hk. simpl in Hk |- *. rewrite !lookup_insert_ne by lia. apply lookup_empty.
Qed.

Lemma w_kit_host : reify (heap w_kit) 0%nat (Computer "h" [Address "a"] []).
Proof.
  simpl. split; [exact I|]. exists [1%nat], []. split; [reflexivity|].
  split; [|exact I]. split; [|exact I]. split; [exact I | reflexivity].
Qed.

Lemma w_kit_cpu : reify (heap w_kit) 2%nat (CPU 4 2500).
Proof. split; [exact I | reflexivity]. Qed.

Lemma w_kit_cpu_leaf (c : loc) : c <> 2%nat -> ~ reach (heap w_kit) 2%nat c.
Proof.
  intros Hc Hr. apply Hc.
  exact (reach_leaf (heap w_kit) 2%nat c (OCPU 4 2500) ltac:(reflexivity) eq_refl Hr).
Qed.

Lemma w_kit_net : reify (heap w_kit) 3%nat (Network "n" []).
Proof. simpl. split; [exact I|]. exists []. split; [reflexivity | exact I]. Qed.

Lemma w_kit_disk : reify (heap w_kit) 4%nat (Disk MAGNETIC 2000 []).
Proof. split; [exact I | reflexivity]. Qed.

Lemma w_kit_coll : reify (heap w_kit) 5%nat (BasicCollection []).
Proof. simpl. split; [exact I|]. exists []. split; [reflexivity | exact I]. Qed.

Lemma w_kit_host_leaf_free : ~ reach (heap w_kit) 0%nat 3%nat.
Proof.
  intros Hr. inversion Hr as [|l o c m Hl Hin Hr']; subst. simpl in Hl. injection Hl as <-.
  simpl in Hin. destruct Hin as [<- | []].
  apply (reach_leaf (heap w_kit) 1%nat 3%nat (OAddress "a") ltac:(reflexivity) eq_refl) in Hr'.
  discriminate.
Qed.

(** ** Object graphs with a cycle *)

Lemma seq_h_heap (print : loc -> string -> bool -> M unit)
    (Hp : forall l p b w u w', print l p b w = Some (u, w') -> heap w' = heap w) :
  forall items p i k w u w', seq_h print items p i k w = Some (u, w') -> heap w' = heap w.
Proof.
  induction items as [|x items IH]; intros p i k w u w' H; simpl in H.
  - unfold retM in H. congruence.
  - unfold bindM in H. destruct (print x p _ w) as [[u1 w1]|] eqn:E; [|discriminate].
    rewrite (IH _ _ _ _ _ _ H). exact (Hp _ _ _ _ _ _ E).
Qed.

(** [print_me] never changes an object, whatever the object graph. *)
Lemma print_me_h_heap (fuel : nat) :
  forall l p b w u w', print_me_h fuel l p b w = Some (u, w') -> heap w' = heap w.
Proof.
  induction fuel as [|fuel IH]; intros l p b w u w' H; simpl in H; [discriminate|].
  unfold bindM at 1, load in H. destruct (heap w !! l) as [o|]; [|discriminate].
  destruct o; unfold write, bindM in H;
    try (injection H as _ <-; reflexivity).
  - rewrite write_rows_correct in H. injection H as _ <-. reflexivity.
  - apply (seq_h_heap _ IH) in H. exact H.
  - apply (seq_h_heap _ IH) in H. exact H.
  - apply (seq_h_heap _ IH) in H. exact H.
Qed.

Lemma seq_h_none (print : loc -> string -> bool -> M unit)
    (Hp : forall l p b w u w', print l p b w = Some (u, w') -> heap w' = heap w)
    (c : loc) (h : gmap loc obj)
    (Hc : forall p b w, heap w = h -> print c p b w = None) :
  forall items p i k w, In c items -> heap w = h -> seq_h print items p i k w = None.
Proof.
  induction items as [|x items IH]; intros p i k w Hin Hw; simpl in Hin |- *; [contradiction|].
  unfold bindM. destruct Hin as [<- | Hin].
  - rewrite (Hc _ _ _ Hw). reflexivity.
  - destruct (print x p _ w) as [[u1 w1]|] eqn:E; [|reflexivity].
    apply IH; [exact Hin|]. rewrite (Hp _ _ _ _ _ _ E). exact Hw.
Qed.

(** An object that holds itself in one of its lists makes [print_me]
    recurse into itself at every depth. *)
Lemma print_me_h_cycle (w : world) (c : loc) (o : obj)
    (Hl : heap w !! c = Some o) (Hin : In c (children o)) :
  forall fuel p b, print_me_h fuel c p b w = None.
Proof.
  intros fuel. revert w Hl. induction fuel as [|fuel IH]; intros w Hl p b; [reflexivity|].
  simpl. unfold bindM at 1, load. rewrite Hl.
  destruct o; simpl in Hin; try contradiction; unfold bindM, write.
  - apply (seq_h_none _ (print_me_h_heap fuel) c (heap w)); [|exact Hin | reflexivity].
    intros p' b' w' Hw'. apply IH. rewrite Hw'. exact Hl.
  - apply (seq_h_none _ (print_me_h_heap fuel) c (heap w)); [|exact Hin | reflexivity].
    intros p' b' w' Hw'. apply IH. rewrite Hw'. exact Hl.
  - apply (seq_h_none _ (print_me_h_heap fuel) c (heap w)); [|exact Hin | reflexivity].
    intros p' b' w' Hw'. apply IH. rewrite Hw'. exact Hl.
Qed.

(** [clone] writes only at identities it allocates. *)
Definition clone_frame (w w' : world) : Prop :=
  (next w <= next w')%nat /\ forall k, (k < next w)%nat -> heap w' !! k = heap w !! k.

Lemma clone_list_frame (cl : loc -> M loc)
    (Hf : forall l w l' w', cl l w = Some (l', w') -> clone_frame w w') :
  forall xs w ys w', clone_list cl xs w = Some (ys, w') -> clone_frame w w'.
Proof.
  induction xs as [|x xs IH]; intros w ys w' H; simpl in H.
  - unfold retM in H. injection H as _ <-. split; [lia | reflexivity].
  - unfold bindM in H. destruct (cl x w) as [[x' w1]|] eqn:E1; [|discriminate].
    destruct (clone_list cl xs w1) as [[ys' w2]|] eqn:E2; [|discriminate].
    unfold retM in H. injection H as _ <-.
    destruct (Hf _ _ _ _ E1) as [H1 H2]. destruct (IH _ _ _ E2) as [H3 H4].
    split; [lia|]. intros k Hk. rewrite H4 by lia. apply H2. exact Hk.
Qed.

Lemma add_partitions_frame (d : loc) (parts : list (Z * string)) :
  forall w u w', add_partitions d parts w = Some (u, w') ->
  next w' = next w /\ forall k, k <> d -> heap w' !! k = heap w !! k.
Proof.
  induction parts as [|[size name] parts IH]; intros w u w' H; simpl in H.
  - unfold retM in H. injection H as _ <-. split; reflexivity.
  - unfold bindM, Heap.add_partition, bindM, load in H.
    destruct (heap w !! d) as [o|]; [|discriminate]. destruct o; try discriminate.
    unfold store, retM in H. apply IH in H as [H1 H2]. simpl in H1, H2.
    split; [exact H1|]. intros k Hk. rewrite H2 by exact Hk. apply lookup_insert_ne. congruence.
Qed.

Lemma clone_frame_fuel (fuel : nat) :
  forall l w l' w', clone fuel l w = Some (l', w') -> clone_frame w w'.
Proof.
  induction fuel as [|fuel IH]; intros l w l' w' H; simpl in H; [discriminate|].
  unfold bindM at 1, load in H. destruct (heap w !! l) as [o|]; [|discriminate].
  pose proof (clone_list_frame _ IH) as HL.
  destruct o; unfold alloc, bindM in H;
    try (injection H as _ <-; unfold clone_frame; split; simpl; [lia|]; intros k Hk;
         apply lookup_insert_ne; lia).
  - destruct (add_partitions (next w) partitions _) as [[u w1]|] eqn:E; [|discriminate].
    unfold retM in H. injection H as _ <-. apply add_partitions_frame in E as [E1 E2].
    simpl in E1, E2. unfold clone_frame. simpl. split; [lia|]. intros k Hk. rewrite E2 by lia.
    apply lookup_insert_ne. lia.
  - destruct (clone_list (clone fuel) addresses _) as [[la w1]|] eqn:E1; [|discriminate].
    unfold store in H.
    destruct (clone_list (clone fuel) components _) as [[lc w2]|] eqn:E2; [|discriminate].
    unfold retM in H. injection H as _ <-.
    apply HL in E1 as [F1 G1]. apply HL in E2 as [F2 G2]. simpl in *.
    unfold clone_frame. simpl. split; [lia|]. intros k Hk. rewrite lookup_insert_ne by lia. rewrite G2 by lia.
    rewrite lookup_insert_ne by lia. rewrite G1 by lia. apply lookup_insert_ne. lia.
  - destruct (clone_list (clone fuel) computers _) as [[lc w1]|] eqn:E1; [|discriminate].
    unfold store, retM in H. injection H as _ <-. apply HL in E1 as [F1 G1]. simpl in *.
    unfold clone_frame. simpl. split; [lia|]. intros k Hk. rewrite lookup_insert_ne by lia. rewrite G1 by lia.
    apply lookup_insert_ne. lia.
  - destruct (clone_list (clone fuel) items _) as [[lc w1]|] eqn:E1; [|discriminate].
    unfold store, retM in H. injection H as _ <-. apply HL in E1 as [F1 G1]. simpl in *.
    unfold clone_frame. simpl. split; [lia|]. intros k Hk. rewrite lookup_insert_ne by lia. rewrite G1 by lia.
    apply lookup_insert_ne. lia.
Qed.

Lemma clone_list_none (cl : loc -> M loc)
    (Hf : forall l w l' w', cl l w = Some (l', w') -> clone_frame w w')
    (c : loc) (o : obj)
    (Hc : forall w, heap w !! c = Some o -> (c < next w)%nat -> cl c w = None) :
  forall xs w, In c xs -> heap w !! c = Some o -> (c < next w)%nat -> clone_list cl xs w = None.
Proof.
  induction xs as [|x xs IH]; intros w Hin Hl Hlt; simpl in Hin |- *; [contradiction|].
  unfold bindM. destruct Hin as [<- | Hin].
  - rewrite (Hc _ Hl Hlt). reflexivity.
  - destruct (cl x w) as [[x' w1]|] eqn:E; [|reflexivity].
    destruct (Hf _ _ _ _ E) as [F G].
    rewrite (IH w1 Hin); [reflexivity | | lia].
    rewrite G by lia. exact Hl.
Qed.

(** ** Lines of the rendered text *)

Lemma no_nl_app_true (a b : string) : no_nl a = true -> no_nl b = true -> no_nl (a +++ b) = true.
Proof.
  induction a as [|c a IH]; intros Ha Hb; [exact Hb|].
  rewrite append_cons_s. simpl in Ha |- *. apply andb_prop in Ha as [Ha1 Ha2].
  rewrite Ha1, (IH Ha2 Hb). reflexivity.
Qed.

Lemma is_nl_digit (d : nat) : (d < 10)%nat -> is_nl (ascii_of_nat (48 + d)) = false.
Proof.
  intros Hd. unfold is_nl. destruct (Ascii.eqb _ _) eqn:E; [|reflexivity].
  apply Ascii.eqb_eq in E. apply (f_equal nat_of_ascii) in E.
  rewrite !nat_ascii_embedding in E by lia. lia.
Qed.

Lemma digits_rev_no_nl (f : nat) : forall n acc, no_nl acc = true -> no_nl (digits_rev f n acc) = true.
Proof.
  induction f as [|f IH]; intros n acc Hacc; cbn [digits_rev]; [exact Hacc|].
  assert (Hd : no_nl (String (ascii_of_nat (48 + Z.to_nat (n mod 10))) acc) = true).
  { cbn [no_nl]. rewrite is_nl_digit, Hacc; [reflexivity|].
    pose proof (Z.mod_pos_bound n 10 ltac:(lia)). lia. }
  destruct (n <? 10); [exact Hd | apply IH, Hd].
Qed.

Lemma no_nl_str_int (z : Z) : no_nl (str_int z) = true.
Proof.
  unfold str_int. destruct (z <? 0).
  - apply no_nl_app_true; [reflexivity | apply digits_rev_no_nl; reflexivity].
  - apply digits_rev_no_nl; reflexivity.
Qed.

Lemma no_nl_connector (b : bool) : no_nl (connector b) = true.
Proof. destruct b; reflexivity. Qed.

Lemma no_nl_segment (b : bool) : no_nl (segment b) = true.
Proof. destruct b; reflexivity. Qed.

Ltac nonl :=
  repeat (apply no_nl_app_true);
  first [ assumption | apply no_nl_str_int | apply no_nl_connector | apply no_nl_segment
        | reflexivity ].

Lemma lines_text_app (a b : list string) : lines_text (a ++ b) = lines_text a +++ lines_text b.
Proof.
  induction a as [|x a IH]; [reflexivity|]. simpl. rewrite IH, !append_assoc_s. reflexivity.
Qed.

Lemma count_nl_app (a b : string) : count_nl (a +++ b) = (count_nl a + count_nl b)%nat.
Proof.
  induction a as [|c a IH]; [reflexivity|]. rewrite append_cons_s. simpl. rewrite IH. lia.
Qed.

Lemma count_nl_no_nl (a : string) : no_nl a = true -> count_nl a = 0%nat.
Proof.
  induction a as [|c a IH]; [reflexivity|]. simpl. intros H.
  apply andb_prop in H as [H1 H2]. destruct (is_nl c); [discriminate|]. simpl. exact (IH H2).
Qed.

Lemma count_nl_lines (ls : list string) :
  Forall (fun l => no_nl l = true) ls -> count_nl (lines_text ls) = length ls.
Proof.
  induction 1 as [|l ls Hl _ IH]; [reflexivity|]. simpl.
  rewrite !count_nl_app, count_nl_no_nl by exact Hl. rewrite IH. reflexivity.
Qed.

Lemma indent_mid (p l r : string) :
  no_nl l = true -> indent_from false p (l +++ nl +++ r) = l +++ nl +++ indent_from true p r.
Proof.
  induction l as [|c l IH]; intros Hl; [reflexivity|].
  simpl in Hl. apply andb_prop in Hl as [Hc Hl]. apply negb_true_iff in Hc.
  rewrite !append_cons_s. cbn [indent_from]. rewrite Hc, (IH Hl). reflexivity.
Qed.

Lemma indent_line (p l r : string) :
  no_nl l = true -> indent_from true p (l +++ nl +++ r) = p +++ l +++ nl +++ indent_from true p r.
Proof.
  destruct l as [|c l]; intros Hl; [reflexivity|].
  simpl in Hl. apply andb_prop in Hl as [Hc Hl]. apply negb_true_iff in Hc.
  rewrite !append_cons_s. cbn [indent_from]. rewrite Hc, (indent_mid p l r Hl).
  reflexivity.
Qed.

Lemma indent_lines (p : string) (ls : list string) :
  Forall (fun l => no_nl l = true) ls -> indent p (lines_text ls) = lines_text (map (fun l => p +++ l) ls).
Proof.
  unfold indent. induction 1 as [|l ls Hl _ IH]; [reflexivity|]. simpl.
  rewrite indent_line by exact Hl. rewrite IH, !append_assoc_s. reflexivity.
Qed.

Lemma lines_one (l : string) : lines_text [l] = l +++ nl.
Proof. simpl. rewrite append_nil_s. reflexivity. Qed.

(** The rendering of a value is a sequence of lines, one per node, and the
    prefix only indents them. *)
Definition lines_of (t : node) : Prop :=
  fields_ok t = true -> forall q b, no_nl q = true ->
  exists ls, Forall (fun l => no_nl l = true) ls /\ length ls = node_lines t
    /\ print_me t q b = lines_text ls
    /\ (no_network t = true -> forall p, print_me t (p +++ q) b = lines_text (map (fun l => p +++ l) ls)).

Lemma disk_rows_lines (np : string) (parts : list (Z * string)) :
  forallb (fun part => no_nl (snd part)) parts = true -> no_nl np = true ->
  forall i k, exists ls, Forall (fun l => no_nl l = true) ls /\ length ls = length parts
    /\ disk_rows np parts i k = lines_text ls
    /\ forall p, disk_rows (p +++ np) parts i k = lines_text (map (fun l => p +++ l) ls).
Proof.
  intros Hparts Hnp. induction parts as [|[size name] parts IH]; intros i k.
  - exists []. repeat split; constructor.
  - simpl in Hparts. apply andb_prop in Hparts as [Hn Hparts].
    destruct (IH Hparts (S i) k) as (ls & Hls & Hlen & Heq & Hp).
    exists ((np +++ connector (Nat.eqb i (k - 1)) +++ "[" +++ str_int (Z.of_nat i) +++ "]: "
             +++ str_int size +++ " GiB, " +++ name) :: ls).
    split; [constructor; [nonl | exact Hls]|]. split; [simpl; lia|]. split.
    + simpl disk_rows. simpl lines_text. rewrite Heq, !append_assoc_s. reflexivity.
    + intros p. simpl disk_rows. simpl lines_text. rewrite Hp, !append_assoc_s. reflexivity.
Qed.

Lemma seq_items_lines (items : list node) :
  Forall lines_of items -> forallb fields_ok items = true ->
  forall np i k, no_nl np = true ->
  exists ls, Forall (fun l => no_nl l = true) ls /\ length ls = list_sum (map node_lines items)
    /\ seq_items print_me items np i k = lines_text ls
    /\ (forallb no_network items = true ->
        forall p, seq_items print_me items (p +++ np) i k = lines_text (map (fun l => p +++ l) ls)).
Proof.
  induction 1 as [|t items Ht _ IH]; intros Hf np i k Hnp.
  - exists []. repeat split; constructor.
  - simpl in Hf. apply andb_prop in Hf as [Hft Hf].
    destruct (Ht Hft np (Nat.eqb i (k - 1)) Hnp) as (l1 & H1 & Hlen1 & Heq1 & Hp1).
    destruct (IH Hf np (S i) k Hnp) as (l2 & H2 & Hlen2 & Heq2 & Hp2).
    exists (l1 ++ l2)%list. split; [apply List.Forall_app; split; assumption|].
    split; [rewrite length_app; simpl; lia|]. split.
    + simpl. rewrite Heq1, Heq2, lines_text_app. reflexivity.
    + intros Hnn p. simpl in Hnn. apply andb_prop in Hnn as [Hn1 Hn2]. simpl.
      rewrite (Hp1 Hn1 p), (Hp2 Hn2 p), map_app, lines_text_app. reflexivity.
Qed.

Lemma render_lines (t : node) : lines_of t.
Proof.
  induction t as [a|size name|st size parts|cores mhz|size|name addrs comps IHa IHc
                  |name comps IH|items IH] using node_ind';
    intros Hf q b Hq; simpl in Hf.
  - exists [q +++ connector b +++ a]. split; [constructor; [nonl | constructor]|].
    split; [reflexivity|]. split.
    + rewrite lines_one. simpl print_me. rewrite !append_assoc_s. reflexivity.
    + intros _ p. simpl map. rewrite lines_one. simpl print_me. rewrite !append_assoc_s.
      reflexivity.
  - exists [q +++ connector b +++ "[" +++ name +++ "]: " +++ str_int size +++ " GiB"].
    split; [constructor; [nonl | constructor]|].
    split; [reflexivity|]. split.
    + rewrite lines_one. simpl print_me. rewrite !append_assoc_s. reflexivity.
    + intros _ p. simpl map. rewrite lines_one. simpl print_me. rewrite !append_assoc_s.
      reflexivity.
  - destruct (disk_rows_lines (q +++ segment b) parts Hf ltac:(nonl) 0%nat (length parts))
      as (ls & Hls & Hlen & Heq & Hp).
    exists ((q +++ connector b +++ (if st =? SSD then "SSD" else "HDD") +++ ", " +++ str_int size
             +++ " GiB") :: ls).
    split; [constructor; [destruct (st =? SSD); nonl | exact Hls]|].
    split; [simpl; lia|]. split.
    + simpl print_me. simpl lines_text. rewrite Heq, !append_assoc_s. reflexivity.
    + intros _ p. simpl print_me. simpl lines_text. rewrite (append_assoc_s p q (segment b)), Hp, !append_assoc_s.
      reflexivity.
  - exists [q +++ connector b +++ "CPU, " +++ str_int cores +++ " cores @ " +++ str_int mhz
            +++ "MHz"].
    split; [constructor; [nonl | constructor]|].
    split; [reflexivity|]. split.
    + rewrite lines_one. simpl print_me. rewrite !append_assoc_s. reflexivity.
    + intros _ p. simpl map. rewrite lines_one. simpl print_me. rewrite !append_assoc_s.
      reflexivity.
  - exists [q +++ connector b +++ "Memory, " +++ str_int size +++ " MiB"].
    split; [constructor; [nonl | constructor]|].
    split; [reflexivity|]. split.
    + rewrite lines_one. simpl print_me. rewrite !append_assoc_s. reflexivity.
    + intros _ p. simpl map. rewrite lines_one. simpl print_me. rewrite !append_assoc_s.
      reflexivity.
  - apply andb_prop in Hf as [Hf Hfc]. apply andb_prop in Hf as [Hn Hfa].
    set (k := (length addrs + length comps)%nat).
    destruct (seq_items_lines addrs IHa Hfa (q +++ segment b) 0%nat k ltac:(nonl))
      as (la & Hla & Hlena & Heqa & Hpa).
    destruct (seq_items_lines comps IHc Hfc (q +++ segment b) (length addrs) k ltac:(nonl))
      as (lc & Hlc & Hlenc & Heqc & Hpc).
    exists ((q +++ connector b +++ "Host: " +++ name) :: la ++ lc)%list.
    split; [constructor; [nonl | apply List.Forall_app; split; assumption]|].
    split; [simpl; rewrite length_app; lia|]. split.
    + simpl print_me. fold k. simpl lines_text. rewrite lines_text_app, Heqa, Heqc, !append_assoc_s.
      reflexivity.
    + intros Hnn p. simpl in Hnn. apply andb_prop in Hnn as [Hna Hnc].
      simpl print_me. fold k. simpl lines_text. rewrite map_app, lines_text_app.
      rewrite (append_assoc_s p q (segment b)), (Hpa Hna p), (Hpc Hnc p), !append_assoc_s.
      reflexivity.
  - apply andb_prop in Hf as [Hn Hfc].
    destruct (seq_items_lines comps IH Hfc "" 0%nat (length comps) eq_refl)
      as (lc & Hlc & Hlenc & Heqc & _).
    exists (("Network: " +++ name) :: lc).
    split; [constructor; [nonl | exact Hlc]|].
    split; [simpl; lia|]. split.
    + simpl print_me. simpl lines_text. rewrite Heqc, !append_assoc_s. reflexivity.
    + intros Hnn. discriminate Hnn.
  - destruct (seq_items_lines items IH Hf q 0%nat (length items) Hq)
      as (li & Hli & Hleni & Heqi & Hpi).
    exists li. split; [exact Hli|]. split; [exact Hleni|]. split.
    + exact Heqi.
    + intros Hnn p. exact (Hpi Hnn p).
Qed.

(** The first failing lookup of a mutator on an object of another class. *)
Ltac bad_owner H :=
  first [ rewrite H; reflexivity
        | let H' := fresh in destruct H as (? & H' & _); rewrite H'; reflexivity
        | let H' := fresh in destruct H as (? & ? & H' & _); rewrite H'; reflexivity ].

Ltac owner_cases tc Hc0 Hc op :=
  destruct tc; pose proof Hc0 as Hc; destruct Hc as [_ Hc]; simpl in Hc;
  try (unfold op, bindM, load; bad_owner Hc).

End MutatorFacts.

Module EmptyClaims.
Import Tree TreeFacts Heap HeapFacts MutatorFacts.

(** C5 (amended): a [Network] with no computers renders the single line
    ["Network: <name>"]; its string form is that line with its trailing
    whitespace removed, which is ["Network: <name>"] exactly when the line
    does not end in whitespace; a [Computer] with no addresses and no
    components renders only its header line.  Nothing raises on values that
    do not contain themselves, within the recursion limit: [find_computer]
    on a network of computers, [print_me] and [clone] of a finite acyclic
    value, and every [add*] and [find] method called on an object of its
    class. *)
Theorem empty_render :
  (forall name p b, print_me (Network name []) p b = "Network: " +++ name +++ nl)
  /\ (forall name, str (Network name []) = rstrip ("Network: " +++ name))
  /\ (forall name, str (Network name []) = "Network: " +++ name
                   <-> ends_space ("Network: " +++ name) = false)
  /\ (forall name p b,
        print_me (Computer name [] []) p b = p +++ connector b +++ "Host: " +++ name +++ nl)
  /\ (forall nm comps name, forallb is_computer comps = true ->
        find_computer (Network nm comps) name <> None)
  /\ (forall w l t fuel p b, reify (heap w) l t -> (height t < fuel)%nat ->
        print_me_h fuel l p b w <> None)
  /\ (forall w l t fuel, wf w -> reify (heap w) l t -> (height t < fuel)%nat ->
        clone fuel l w <> None)
  /\ (forall w c o x, heap w !! c = Some o ->
        match o with
        | OBasicCollection _ => Heap.add c x w <> None /\ Heap.find c x w <> None
        | OComputer _ _ _ =>
            Heap.add_component c x w <> None /\ forall arg, Heap.add_address c arg w <> None
        | ONetwork _ _ => Heap.add_computer c x w <> None
        | ODisk _ _ _ => forall size name, Heap.add_partition c size name w <> None
        | _ => True
        end).
Proof.
  assert (Hs : forall name, str (Network name []) = rstrip ("Network: " +++ name)).
  { intros name. unfold str. simpl print_me. rewrite append_nil_s.
    rewrite strip_plain_head by (right; do 2 eexists; split; reflexivity).
    rewrite <- (append_assoc_s "Network: "). apply rstrip_app_nl. }
  split; [intros; simpl; now rewrite append_nil_s|].
  split; [exact Hs|].
  split.
  { intros name. rewrite Hs. split.
    - intros E. destruct (ends_space ("Network: " +++ name)) eqn:Hb; [|reflexivity].
      exfalso. exact (rstrip_changes _ Hb E).
    - apply rstrip_clean. }
  split; [intros; simpl; now rewrite append_nil_s|].
  split.
  { intros nm comps name Hc. simpl. induction comps as [|c comps IH]; simpl; [discriminate|].
    simpl in Hc. apply andb_true_iff in Hc as [Hc Hr].
    destruct c; try discriminate. simpl.
    destruct (String.eqb name0 name); [discriminate | exact (IH Hr)]. }
  split.
  { intros w l t fuel p b Ht Hf.
    rewrite (print_me_h_correct (fun _ => True) t fuel Hf l w p b Ht). discriminate. }
  split.
  { intros w l t fuel Hw Ht Hf.
    destruct (clone_correct t fuel Hf l w Hw (reify_below w l t Hw Ht)) as (l' & w' & E & _).
    rewrite E. discriminate. }
  intros w c o x Hl.
  destruct o; try exact I.
  - intros size name'. unfold Heap.add_partition, bindM, load, store, retM.
    rewrite Hl. discriminate.
  - split.
    + unfold Heap.add_component, bindM, load, store, retM. rewrite Hl. discriminate.
    + intros [s|a]; unfold Heap.add_address, bindM, load, store, alloc, retM;
        rewrite Hl; discriminate.
  - unfold Heap.add_computer, bindM, load, store, retM. rewrite Hl. discriminate.
  - split.
    + unfold Heap.add, bindM, load, store, retM. rewrite Hl. discriminate.
    + unfold Heap.find, bindM, load, retM. rewrite Hl. discriminate.
Qed.

Lemma empty_render_witness :
  str (Network "lan" []) = "Network: lan"
  /\ find_computer main_network "x" <> None.
Proof.
  split.
  - apply (proj2 (proj1 (proj2 (proj2 empty_render)) "lan")). reflexivity.
  - apply (proj1 (proj2 (proj2 (proj2 (proj2 empty_render))))). reflexivity.
Defined.

(** C5 fails as stated: for the empty name the string form of the empty
    network loses the space after the colon; and an operation can raise
    on well-typed inputs: [BasicCollection.add] takes any object, so
    [c = BasicCollection(); c.add(c)] is accepted, after which [print(c)]
    ([c.print_me(buf, "", True)]) recurses until Python's recursion limit
    and raises, whatever the depth allowed. *)
Lemma empty_render_cex :
  print_me (Network "" []) "" true = "Network: " +++ nl
  /\ str (Network "" []) = "Network:"
  /\ str (Network "" []) <> "Network: "
  /\ forall fuel,
       (let* c := alloc (OBasicCollection []) in
        let* _ := Heap.add c c in
        print_me_h fuel c "" true) (mkWorld ∅ "" 0%nat) = None.
Proof.
  split; [reflexivity|]. split; [vm_compute; reflexivity|].
  split; [vm_compute; discriminate|].
  intros fuel.
  change ((let* c := alloc (OBasicCollection []) in
           let* _ := Heap.add c c in
           print_me_h fuel c "" true) (mkWorld ∅ "" 0%nat))
    with (print_me_h fuel 0%nat "" true
            (mkWorld (<[0%nat := OBasicCollection [0%nat]]> (<[0%nat := OBasicCollection []]> ∅))
                     "" 1%nat)).
  apply (print_me_h_cycle _ 0%nat (OBasicCollection [0%nat])).
  - reflexivity.
  - simpl. now left.
Qed.

End EmptyClaims.

Module ExtraClaims.
Import Tree TreeFacts Heap HeapFacts MutatorFacts.

(** [Computer.add_address(s)] with a string [s] creates a new [Address(s)]
    (the fresh identity [next w]) and appends that identity to the
    addresses list of the computer; the other objects keep their values and
    the output is untouched.  On an object that is not a
    [Computer] it raises ([AttributeError]). *)
Theorem add_address_str_value (w : world) (c : loc) (tc : node) (s : string)
    (Hw : wf w) (Hc0 : reify (heap w) c tc) :
  match tc with
  | Computer nm _ _ =>
      exists w', Heap.add_address c (HStr s) w = Some (c, w')
        /\ reify (heap w') c (Tree.add_address tc (AStr s))
        /\ heap w' !! next w = Some (OAddress s)
        /\ (forall k, k <> c -> (k < next w)%nat -> heap w' !! k = heap w !! k)
        /\ next w' = S (next w) /\ out w' = out w /\ wf w'
        /\ exists la lc, heap w !! c = Some (OComputer nm la lc)
                        /\ heap w' !! c = Some (OComputer nm (la ++ [next w]) lc)
  | _ => Heap.add_address c (HStr s) w = None
  end.
Proof.
  owner_cases tc Hc0 Hc Heap.add_address.
  destruct Hc as (la & lc & Hl & Ha & Hcs).
  assert (Hlt : (c < next w)%nat) by exact (reach_below w c c _ Hw Hc0 (reach_refl _ _)).
  exists (mkWorld (<[c := OComputer name (la ++ [next w]) lc]> (<[next w := OAddress s]> (heap w)))
            (out w) (S (next w))).
  split.
  { unfold Heap.add_address, bindM, load, alloc, store, retM. rewrite Hl. reflexivity. }
  assert (Hfr : forall li k, In li (la ++ lc) -> reach (heap w) li k ->
            (<[c := OComputer name (la ++ [next w]) lc]> (<[next w := OAddress s]> (heap w))) !! k
            = heap w !! k).
  { intros li k Hli Hk.
    assert (Hck : k <> c)
      by (intros ->; exact (reifyP_acyclic _ _ _ _ _ _ Hc0 Hl Hli Hk)).
    assert (Hkn : (k < next w)%nat)
      by exact (reach_below w c k _ Hw Hc0 (reach_trans_child _ _ _ _ _ Hl Hli Hk)).
    rewrite !lookup_insert_ne by lia. reflexivity. }
  simpl. split; [|split; [|split; [|split; [reflexivity | split; [reflexivity|]]]]].
  - split; [exact I|]. exists (la ++ [next w])%list, lc.
    split; [apply lookup_insert_eq|]. split.
    + apply all2_app.
      * apply (all2_frame _ _ _ _ Ha). intros li k Hli. apply Hfr. apply in_or_app. now left.
      * simpl. split; [|exact I]. split; [exact I|].
        rewrite lookup_insert_ne by lia. apply lookup_insert_eq.
    + apply (all2_frame _ _ _ _ Hcs). intros li k Hli. apply Hfr. apply in_or_app. now right.
  - rewrite lookup_insert_ne by lia. apply lookup_insert_eq.
  - intros k Hk1 Hk2. rewrite !lookup_insert_ne by lia. reflexivity.
  - split.
    + intros k Hk. simpl in Hk |- *. rewrite !lookup_insert_ne by lia. apply Hw. lia.
    + exists la, lc. split; [exact Hl | apply lookup_insert_eq].
Qed.

Lemma add_address_str_value_witness :
  exists w', Heap.add_address 0%nat (HStr "b") w_kit = Some (0%nat, w')
    /\ reify (heap w') 0%nat (Computer "h" [Address "a"; Address "b"] []).
Proof.
  pose proof (add_address_str_value w_kit 0%nat _ "b" w_kit_wf w_kit_host) as H.
  destruct H as (w' & H1 & H2 & _). exists w'. split; [exact H1 | exact H2].
Defined.

(** [Computer.add_address(a)] with an object [a] appends that very object
    (its identity [a], no copy) to the addresses list of the computer, which
    then holds the value of [a]; this needs [a] not to contain the computer.
    Nothing else changes.  On an object that is not a [Computer] it
    raises. *)
Theorem add_address_obj_value (w : world) (c a : loc) (tc ta : node)
    (Hc0 : reify (heap w) c tc) (Ha0 : reify (heap w) a ta) (Hac : ~ reach (heap w) a c) :
  match tc with
  | Computer nm _ _ =>
      exists w', Heap.add_address c (HObj a) w = Some (c, w')
        /\ reify (heap w') c (Tree.add_address tc (AObj ta))
        /\ reify (heap w') a ta
        /\ (forall k, k <> c -> heap w' !! k = heap w !! k)
        /\ next w' = next w /\ out w' = out w
        /\ exists la lc, heap w !! c = Some (OComputer nm la lc)
                        /\ heap w' !! c = Some (OComputer nm (la ++ [a]) lc)
  | _ => Heap.add_address c (HObj a) w = None
  end.
Proof.
  owner_cases tc Hc0 Hc Heap.add_address.
  destruct Hc as (la & lc & Hl & Ha & Hcs).
  exists (mkWorld (<[c := OComputer name (la ++ [a]) lc]> (heap w)) (out w) (next w)).
  split.
  { unfold Heap.add_address, bindM, load, store, retM. rewrite Hl. reflexivity. }
  simpl. split; [|split; [|split; [|split; [reflexivity | split; [reflexivity|]]]]].
  - split; [exact I|]. exists (la ++ [a])%list, lc. split; [apply lookup_insert_eq|]. split.
    + apply all2_app.
      * refine (children_after_store _ _ _ _ _ _ _ Hc0 Hl _ Ha).
        intros li Hli. simpl. apply in_or_app. now left.
      * simpl. split; [|exact I]. exact (value_after_store _ _ _ _ _ Ha0 Hac).
    + refine (children_after_store _ _ _ _ _ _ _ Hc0 Hl _ Hcs).
      intros li Hli. simpl. apply in_or_app. now right.
  - exact (value_after_store _ _ _ _ _ Ha0 Hac).
  - intros k Hk. apply lookup_insert_ne. congruence.
  - exists la, lc. split; [exact Hl | apply lookup_insert_eq].
Qed.

Lemma add_address_obj_value_witness :
  exists w', Heap.add_address 0%nat (HObj 1%nat) w_kit = Some (0%nat, w')
    /\ reify (heap w') 0%nat (Computer "h" [Address "a"; Address "a"] []).
Proof.
  assert (Ha : reify (heap w_kit) 1%nat (Address "a")) by (split; [exact I | reflexivity]).
  assert (Hac : ~ reach (heap w_kit) 1%nat 0%nat).
  { intros Hr. apply (reach_leaf (heap w_kit) 1%nat 0%nat (OAddress "a") ltac:(reflexivity) eq_refl) in Hr.
    discriminate. }
  pose proof (add_address_obj_value w_kit 0%nat 1%nat _ _ w_kit_host Ha Hac) as H.
  destruct H as (w' & H1 & H2 & _). exists w'. split; [exact H1 | exact H2].
Defined.

(** [Computer.add_component(x)] appends the identity [x] itself to the
    components list of the computer, which then holds the value of [x] after its addresses and
    earlier components; this needs [x] not to contain the computer.  On an
    object that is not a [Computer] it raises. *)
Theorem add_component_value (w : world) (c x : loc) (tc tx : node)
    (Hc0 : reify (heap w) c tc) (Hx0 : reify (heap w) x tx) (Hxc : ~ reach (heap w) x c) :
  match tc with
  | Computer nm _ _ =>
      exists w', Heap.add_component c x w = Some (c, w')
        /\ reify (heap w') c (Tree.add_component tc tx)
        /\ (forall k, k <> c -> heap w' !! k = heap w !! k)
        /\ next w' = next w /\ out w' = out w
        /\ exists la lc, heap w !! c = Some (OComputer nm la lc)
                        /\ heap w' !! c = Some (OComputer nm la (lc ++ [x]))
  | _ => Heap.add_component c x w = None
  end.
Proof.
  owner_cases tc Hc0 Hc Heap.add_component.
  destruct Hc as (la & lc & Hl & Ha & Hcs).
  exists (mkWorld (<[c := OComputer name la (lc ++ [x])]> (heap w)) (out w) (next w)).
  split.
  { unfold Heap.add_component, bindM, load, store, retM. rewrite Hl. reflexivity. }
  simpl. split; [|split; [|split; [reflexivity | split; [reflexivity|]]]].
  - split; [exact I|]. exists la, (lc ++ [x])%list. split; [apply lookup_insert_eq|]. split.
    + refine (children_after_store _ _ _ _ _ _ _ Hc0 Hl _ Ha).
      intros li Hli. simpl. apply in_or_app. now left.
    + apply all2_app.
      * refine (children_after_store _ _ _ _ _ _ _ Hc0 Hl _ Hcs).
        intros li Hli. simpl. apply in_or_app. now right.
      * simpl. split; [|exact I]. exact (value_after_store _ _ _ _ _ Hx0 Hxc).
  - intros k Hk. apply lookup_insert_ne. congruence.
  - exists la, lc. split; [exact Hl | apply lookup_insert_eq].
Qed.

Lemma add_component_value_witness :
  exists w', Heap.add_component 0%nat 2%nat w_kit = Some (0%nat, w')
    /\ reify (heap w') 0%nat (Computer "h" [Address "a"] [CPU 4 2500]).
Proof.
  pose proof (add_component_value w_kit 0%nat 2%nat _ _ w_kit_host w_kit_cpu
                (w_kit_cpu_leaf 0%nat ltac:(discriminate))) as H.
  destruct H as (w' & H1 & H2 & _). exists w'. split; [exact H1 | exact H2].
Defined.

(** [Network.add_computer(x)] appends the identity [x] itself to the
    computers list of the network, which then holds the value of [x]; this needs [x] not to contain the network.  On an object
    that is not a [Network] it raises. *)
Theorem add_computer_value (w : world) (n x : loc) (tn tx : node)
    (Hn0 : reify (heap w) n tn) (Hx0 : reify (heap w) x tx) (Hxn : ~ reach (heap w) x n) :
  match tn with
  | Network nm _ =>
      exists w', Heap.add_computer n x w = Some (n, w')
        /\ reify (heap w') n (Tree.add_computer tn tx)
        /\ (forall k, k <> n -> heap w' !! k = heap w !! k)
        /\ next w' = next w /\ out w' = out w
        /\ exists lcs, heap w !! n = Some (ONetwork nm lcs)
                      /\ heap w' !! n = Some (ONetwork nm (lcs ++ [x]))
  | _ => Heap.add_computer n x w = None
  end.
Proof.
  owner_cases tn Hn0 Hn Heap.add_computer.
  destruct Hn as (lcs & Hl & Hcs).
  exists (mkWorld (<[n := ONetwork name (lcs ++ [x])]> (heap w)) (out w) (next w)).
  split.
  { unfold Heap.add_computer, bindM, load, store, retM. rewrite Hl. reflexivity. }
  simpl. split; [|split; [|split; [reflexivity | split; [reflexivity|]]]].
  - split; [exact I|]. exists (lcs ++ [x])%list. split; [apply lookup_insert_eq|].
    apply all2_app.
    + exact (children_after_store _ _ _ _ _ _ _ Hn0 Hl (fun li Hli => Hli) Hcs).
    + simpl. split; [|exact I]. exact (value_after_store _ _ _ _ _ Hx0 Hxn).
  - intros k Hk. apply lookup_insert_ne. congruence.
  - exists lcs. split; [exact Hl | apply lookup_insert_eq].
Qed.

Lemma add_computer_value_witness :
  exists w', Heap.add_computer 3%nat 0%nat w_kit = Some (3%nat, w')
    /\ reify (heap w') 3%nat (Network "n" [Computer "h" [Address "a"] []]).
Proof.
  pose proof (add_computer_value w_kit 3%nat 0%nat _ _ w_kit_net w_kit_host
                w_kit_host_leaf_free) as H.
  destruct H as (w' & H1 & H2 & _). exists w'. split; [exact H1 | exact H2].
Defined.

(** [Disk.add_partition(size, name)] appends the tuple [(size, name)] to the
    partitions of the disk and changes nothing else.  On an object that is
    not a [Disk] it raises. *)
Theorem add_partition_value (w : world) (d : loc) (td : node) (size : Z) (name : string)
    (Hd0 : reify (heap w) d td) :
  match td with
  | Disk _ _ _ =>
      exists w', Heap.add_partition d size name w = Some (d, w')
        /\ reify (heap w') d (Tree.add_partition td size name)
        /\ (forall k, k <> d -> heap w' !! k = heap w !! k)
        /\ next w' = next w /\ out w' = out w
  | _ => Heap.add_partition d size name w = None
  end.
Proof.
  owner_cases td Hd0 Hd Heap.add_partition.
  exists (mkWorld (<[d := ODisk storage_type numeric_val (partitions ++ [(size, name)])]> (heap w))
            (out w) (next w)).
  split.
  { unfold Heap.add_partition, bindM, load, store, retM. rewrite Hd. reflexivity. }
  simpl. split; [|split; [|split; reflexivity]].
  - split; [exact I | apply lookup_insert_eq].
  - intros k Hk. apply lookup_insert_ne. congruence.
Qed.

Lemma add_partition_value_witness :
  exists w', Heap.add_partition 4%nat 500 "system" w_kit = Some (4%nat, w')
    /\ reify (heap w') 4%nat (Disk MAGNETIC 2000 [(500, "system")]).
Proof.
  pose proof (add_partition_value w_kit 4%nat _ 500 "system" w_kit_disk) as H.
  destruct H as (w' & H1 & H2 & _). exists w'. split; [exact H1 | exact H2].
Defined.

(** [BasicCollection.add(x)] appends the identity [x] itself to the items
    list of the collection, which then holds the value of [x]; this needs [x] not to contain the collection.  On an object
    that is not a [BasicCollection] it raises. *)
Theorem add_value (w : world) (c x : loc) (tc tx : node)
    (Hc0 : reify (heap w) c tc) (Hx0 : reify (heap w) x tx) (Hxc : ~ reach (heap w) x c) :
  match tc with
  | BasicCollection items =>
      exists w', Heap.add c x w = Some (c, w')
        /\ reify (heap w') c (BasicCollection (items ++ [tx]))
        /\ (forall k, k <> c -> heap w' !! k = heap w !! k)
        /\ next w' = next w /\ out w' = out w
        /\ exists lis, heap w !! c = Some (OBasicCollection lis)
                      /\ heap w' !! c = Some (OBasicCollection (lis ++ [x]))
  | _ => Heap.add c x w = None
  end.
Proof.
  owner_cases tc Hc0 Hc Heap.add.
  destruct Hc as (lis & Hl & Hcs).
  exists (mkWorld (<[c := OBasicCollection (lis ++ [x])]> (heap w)) (out w) (next w)).
  split.
  { unfold Heap.add, bindM, load, store, retM. rewrite Hl. reflexivity. }
  simpl. split; [|split; [|split; [reflexivity | split; [reflexivity|]]]].
  - split; [exact I|]. exists (lis ++ [x])%list. split; [apply lookup_insert_eq|].
    apply all2_app.
    + exact (children_after_store _ _ _ _ _ _ _ Hc0 Hl (fun li Hli => Hli) Hcs).
    + simpl. split; [|exact I]. exact (value_after_store _ _ _ _ _ Hx0 Hxc).
  - intros k Hk. apply lookup_insert_ne. congruence.
  - exists lis. split; [exact Hl | apply lookup_insert_eq].
Qed.

Lemma add_value_witness :
  exists w', Heap.add 5%nat 2%nat w_kit = Some (5%nat, w')
    /\ reify (heap w') 5%nat (BasicCollection [CPU 4 2500]).
Proof.
  pose proof (add_value w_kit 5%nat 2%nat _ _ w_kit_coll w_kit_cpu
                (w_kit_cpu_leaf 5%nat ltac:(discriminate))) as H.
  destruct H as (w' & H1 & H2 & _). exists w'. split; [exact H1 | exact H2].
Defined.

(** [Computer.add_address] and [Computer.add_component] on the same
    computer commute: both orders give the same result, the same objects and
    the same identities (or both raise).  The addresses are printed before
    the components whatever the order of the calls. *)
Theorem add_address_component_commute (c x : loc) (arg : addr_arg_h) (w : world) :
  (let* _ := Heap.add_address c arg in Heap.add_component c x) w
  = (let* _ := Heap.add_component c x in Heap.add_address c arg) w.
Proof.
  unfold Heap.add_address, Heap.add_component, bindM, load, store, alloc, retM.
  destruct (heap w !! c) as [o|] eqn:E; [|reflexivity].
  destruct o; try reflexivity. destruct arg as [s|a]; cbn.
  - rewrite !lookup_insert_eq. cbn. do 3 f_equal.
    rewrite !insert_insert_eq.
    destruct (decide (c = next w)) as [->|Hne].
    + rewrite !insert_insert_eq. reflexivity.
    + rewrite (insert_insert_ne _ (next w) c) by congruence. rewrite insert_insert_eq. reflexivity.
  - rewrite !lookup_insert_eq. cbn. rewrite !insert_insert_eq. reflexivity.
Qed.

(** An object that holds itself in one of its lists ([c.add(c)],
    [n.add_computer(n)], ...) cannot be printed: [print_me] recurses until
    Python's recursion limit and raises, whatever the depth allowed. *)
Theorem print_me_self_cycle (w : world) (c : loc) (o : obj)
    (Hl : heap w !! c = Some o) (Hin : In c (children o)) :
  forall fuel p b, print_me_h fuel c p b w = None.
Proof. exact (print_me_h_cycle w c o Hl Hin). Qed.

Lemma print_me_self_cycle_witness :
  let w := mkWorld (<[0%nat := OBasicCollection [0%nat]]> ∅) "" 1%nat in
  print_me_h 100 0%nat "" true w = None.
Proof.
  intros w. apply (print_me_self_cycle w 0%nat (OBasicCollection [0%nat])).
  - reflexivity.
  - simpl. now left.
Defined.

(** Likewise [clone] on an object that holds itself never returns: the
    copy recurses into the object being copied until the recursion limit. *)
Theorem clone_self_cycle (w : world) (c : loc) (o : obj)
    (Hl : heap w !! c = Some o) (Hin : In c (children o)) (Hlt : (c < next w)%nat) :
  forall fuel, clone fuel c w = None.
Proof.
  intros fuel. revert w Hl Hlt. induction fuel as [|fuel IH]; intros w Hl Hlt; [reflexivity|].
  simpl. unfold bindM at 1, load. rewrite Hl.
  pose proof (clone_list_none _ (clone_frame_fuel fuel) c o IH) as HN.
  pose proof (clone_list_frame _ (clone_frame_fuel fuel)) as HL.
  destruct o; simpl in Hin; try contradiction; unfold alloc, bindM.
  - apply in_app_or in Hin as [Hin | Hin].
    + rewrite HN; [reflexivity | exact Hin | | simpl; lia].
      simpl. rewrite lookup_insert_ne by lia. exact Hl.
    + destruct (clone_list (clone fuel) addresses _) as [[la w1]|] eqn:E1; [|reflexivity].
      apply HL in E1 as [F1 G1]. simpl in F1, G1. unfold store.
      rewrite HN; [reflexivity | exact Hin | | simpl; lia].
      simpl. rewrite lookup_insert_ne by lia. rewrite G1 by lia.
      rewrite lookup_insert_ne by lia. exact Hl.
  - rewrite HN; [reflexivity | exact Hin | | simpl; lia].
    simpl. rewrite lookup_insert_ne by lia. exact Hl.
  - rewrite HN; [reflexivity | exact Hin | | simpl; lia].
    simpl. rewrite lookup_insert_ne by lia. exact Hl.
Qed.

Lemma clone_self_cycle_witness :
  let w := mkWorld (<[0%nat := ONetwork "n" [0%nat]]> ∅) "" 1%nat in
  clone 100 0%nat w = None.
Proof.
  intros w. apply (clone_self_cycle w 0%nat (ONetwork "n" [0%nat])).
  - reflexivity.
  - simpl. now left.
  - simpl. lia.
Defined.

(** [Network.find_computer] raises exactly when, before any computer of the
    given name, the loop reaches an element without a [name] attribute:
    every element before it has a name, and none of these names is the one
    looked up. *)
Theorem find_computer_raises (nm name : string) (comps : list node) :
  find_computer (Network nm comps) name = None <->
  exists pre x post, comps = (pre ++ x :: post)%list /\ name_attr x = None
    /\ Forall (fun y => exists n, name_attr y = Some n /\ n <> name) pre.
Proof.
  unfold find_computer. split.
  - induction comps as [|comp rest IH]; simpl; [discriminate|].
    destruct (name_attr comp) as [cname|] eqn:Ec.
    + destruct (String.eqb cname name) eqn:Eq; [discriminate|].
      intros H. destruct (IH H) as (pre & x & post & -> & Hx & Hpre).
      exists (comp :: pre), x, post. split; [reflexivity|]. split; [exact Hx|].
      constructor; [|exact Hpre]. exists cname. split; [exact Ec|].
      apply String.eqb_neq, Eq.
    + intros _. exists [], comp, rest. split; [reflexivity|]. split; [exact Ec | constructor].
  - intros (pre & x & post & -> & Hx & Hpre). induction Hpre as [|y pre Hy _ IH]; simpl.
    + rewrite Hx. reflexivity.
    + destruct Hy as (n & Hy & Hn). rewrite Hy.
      apply String.eqb_neq in Hn. rewrite Hn. exact IH.
Qed.

(** [Network.find_computer] returns an element exactly when it is the first
    one whose [name] equals the one looked up, all elements before it
    having a [name]; the element need not be a [Computer] (any object with
    that [name], such as a [Network] or a [Partition], is returned). *)
Theorem find_computer_found (nm name : string) (comps : list node) (x : node) :
  find_computer (Network nm comps) name = Some (Some x) <->
  exists pre post, comps = (pre ++ x :: post)%list /\ name_attr x = Some name
    /\ Forall (fun y => exists n, name_attr y = Some n /\ n <> name) pre.
Proof.
  unfold find_computer. split.
  - induction comps as [|comp rest IH]; simpl; [discriminate|].
    destruct (name_attr comp) as [cname|] eqn:Ec; [|discriminate].
    destruct (String.eqb cname name) eqn:Eq.
    + intros H. injection H as <-. apply String.eqb_eq in Eq. subst cname.
      exists [], rest. split; [reflexivity|]. split; [exact Ec | constructor].
    + intros H. destruct (IH H) as (pre & post & -> & Hx & Hpre).
      exists (comp :: pre), post. split; [reflexivity|]. split; [exact Hx|].
      constructor; [|exact Hpre]. exists cname. split; [exact Ec|].
      apply String.eqb_neq, Eq.
  - intros (pre & post & -> & Hx & Hpre). induction Hpre as [|y pre Hy _ IH]; simpl.
    + rewrite Hx, String.eqb_refl. reflexivity.
    + destruct Hy as (n & Hy & Hn). rewrite Hy.
      apply String.eqb_neq in Hn. rewrite Hn. exact IH.
Qed.

(** When no name or address string holds a newline and the prefix holds
    none, [print_me] writes one line per node and one per partition of a
    disk (a [BasicCollection] has no line of its own), each ended by a
    newline. *)
Theorem print_me_line_count (t : node) (p : string) (b : bool) :
  fields_ok t = true -> no_nl p = true -> count_nl (print_me t p b) = node_lines t.
Proof.
  intros Hf Hp. destruct (render_lines t Hf p b Hp) as (ls & Hls & Hlen & Heq & _).
  rewrite Heq, count_nl_lines by exact Hls. exact Hlen.
Qed.

Lemma print_me_line_count_witness :
  fields_ok main_network = true /\ no_nl "" = true
  /\ count_nl (print_me main_network "" true) = node_lines main_network
  /\ node_lines main_network = 11%nat.
Proof.
  split; [reflexivity|]. split; [reflexivity|]. split.
  - apply (print_me_line_count main_network "" true); reflexivity.
  - reflexivity.
Defined.

(** Outside a [Network] (which always starts at column 0), the prefix
    passed to [print_me] only indents: the text printed with prefix [p] is
    the text printed with the empty prefix, with [p] put at the start of
    each line. *)
Theorem print_me_indent (t : node) :
  fields_ok t = true -> no_network t = true ->
  forall p b, print_me t p b = indent p (print_me t "" b).
Proof.
  intros Hf Hn p b. destruct (render_lines t Hf "" b eq_refl) as (ls & Hls & _ & Heq & Hp).
  rewrite Heq, indent_lines by exact Hls. rewrite <- (append_nil_s p) at 1.
  exact (Hp Hn p).
Qed.

Lemma print_me_indent_witness :
  let t := Computer "h" [Address "a"] [CPU 4 2500; Disk SSD 256 [(200, "root")]] in
  fields_ok t = true /\ no_network t = true
  /\ print_me t "| " false = indent "| " (print_me t "" false).
Proof.
  intros t. split; [reflexivity|]. split; [reflexivity|].
  apply (print_me_indent t); reflexivity.
Defined.

End ExtraClaims.
